(** * repl-with: the specifier parser, the argument mapper, the validator
      and the session handlers of [src/lib.ts] and [src/index.ts]

    A shallow embedding of the TypeScript sources.  JavaScript strings are
    sequences of UTF-16 code units; regular expressions are run by a
    backtracking matcher that lists the successful continuations in the
    priority order of ECMAScript (greedy quantifiers try the longest
    expansion first), so the match a JavaScript engine reports is the head
    of that list.  The package manager, the module loader and the other
    host services are parameters of the development. *)

From stdpp Require Import base option list gmap strings.
From Stdlib Require Import NArith Ascii String.

Open Scope N_scope.
Open Scope list_scope.

Set Warnings "-clear-no-such-hyp".

(** * The program *)

(** ** JavaScript strings *)

Module JsString.

(** One UTF-16 code unit. *)
Definition code_unit : Type := N.

(** The text of a string literal of the source (ASCII only). *)
Definition js (s : string) : list code_unit :=
  map N_of_ascii (list_ascii_of_string s).

(** [String.prototype.includes] with a one-character needle. *)
Definition includes (c : code_unit) (s : list code_unit) : bool :=
  existsb (N.eqb c) s.

(** [String.prototype.split] with a one-character separator: the pieces
    between consecutive separators, in order; never empty. *)
Fixpoint split (c : code_unit) (s : list code_unit) : list (list code_unit) :=
  match s with
  | [] => [[]]
  | x :: t =>
      if N.eqb x c then [] :: split c t
      else match split c t with
           | p :: ps => (x :: p) :: ps
           | [] => [[x]]
           end
  end.

End JsString.
Export JsString.

Abbreviation jsstring := (list code_unit).

(** The code unit of an ASCII character. *)
Definition cu (a : ascii) : code_unit := N_of_ascii a.

Arguments cu : simpl never.
Arguments js : simpl never.

(** ** Regular expressions *)

Module Regex.

(** The fragment of the ECMAScript pattern syntax the sources use:
    character classes, greedy [+] and [*] over a class, greedy [?],
    named groups, and the assertions [^] and [$] (no [m] flag). *)
Inductive regex : Type :=
| Class (p : code_unit -> bool)
| Many1 (p : code_unit -> bool)
| Many0 (p : code_unit -> bool)
| Seq (r1 r2 : regex)
| Opt (r : regex)
| Group (name : string) (r : regex)
| Bol
| Eol.

(** A match state: the index reached, the input still ahead of it and
    the groups captured so far. *)
Record mstate : Type := MState {
  endIndex : nat;
  ahead : jsstring;
  captures : gmap string jsstring
}.

Definition advance (st : mstate) (t : jsstring) : mstate :=
  MState (S (endIndex st)) t (captures st).

Definition capture (name : string) (start : mstate) (st : mstate) : mstate :=
  MState (endIndex st) (ahead st)
    (<[name := take (endIndex st - endIndex start) (ahead start)]> (captures st)).

(** Greedy repetition of a class: the states after each possible number
    of characters, the longest run first, the empty run last. *)
Fixpoint many (p : code_unit -> bool) (i : nat) (s : jsstring)
    (caps : gmap string jsstring) : list mstate :=
  match s with
  | c :: t => (if p c then many p (S i) t caps else []) ++ [MState i s caps]
  | [] => [MState i [] caps]
  end.

(** All the ways [r] matches at [st], most preferred first. *)
Fixpoint run (r : regex) (st : mstate) : list mstate :=
  match r with
  | Class p =>
      match ahead st with
      | c :: t => if p c then [advance st t] else []
      | [] => []
      end
  | Many1 p =>
      match ahead st with
      | c :: t => if p c then many p (S (endIndex st)) t (captures st) else []
      | [] => []
      end
  | Many0 p => many p (endIndex st) (ahead st) (captures st)
  | Seq r1 r2 => run r1 st ≫= run r2
  | Opt r => run r st ++ [st]
  | Group name r => capture name st <$> run r st
  | Bol => if Nat.eqb (endIndex st) 0 then [st] else []
  | Eol => match ahead st with [] => [st] | _ :: _ => [] end
  end.

(** The match starting at index [i], if there is one. *)
Definition match_at (r : regex) (i : nat) (s : jsstring) : option mstate :=
  head (run r (MState i (drop i s) ∅)).

(** [RegExp.prototype.exec] without the [g] and [y] flags: the first
    start index, from 0 up to the length of the input, at which the
    pattern matches. *)
Fixpoint exec_from (r : regex) (s : jsstring) (i : nat) (fuel : nat) : option mstate :=
  match match_at r i s with
  | Some m => Some m
  | None =>
      match fuel with
      | O => None
      | S fuel' => exec_from r s (S i) fuel'
      end
  end.

Definition exec (r : regex) (s : jsstring) : option mstate :=
  exec_from r s 0 (List.length s).

(** [RegExp.prototype.test]. *)
Definition test (r : regex) (s : jsstring) : bool :=
  match exec r s with Some _ => true | None => false end.

(** [match?.groups?.name || '']: an absent match, a group that did not
    take part and a group that captured the empty text all give ['']. *)
Definition group_or_empty (m : option mstate) (name : string) : jsstring :=
  match m with
  | Some st => default [] (captures st !! name)
  | None => []
  end.

Definition chr (a : ascii) : regex := Class (N.eqb (N_of_ascii a)).

Definition in_range (lo hi : ascii) (c : code_unit) : bool :=
  N.leb (N_of_ascii lo) c && N.leb c (N_of_ascii hi).

(** [.] without the [s] flag: any code unit but the line terminators
    LF, CR, U+2028 and U+2029. *)
Definition dot (c : code_unit) : bool :=
  negb (N.eqb c 10 || N.eqb c 13 || N.eqb c 8232 || N.eqb c 8233).

End Regex.
Export Regex.

Infix ";;;" := Seq (at level 62, right associativity).

(** ** The specifier parser ([src/lib.ts], lines 13-42) *)

Record Package : Type := mkPackage {
  install : jsstring;
  scope : jsstring;
  name : jsstring;
  version : jsstring;
  subpath : jsstring
}.

(** [[^\/]] *)
Definition not_slash (c : code_unit) : bool := negb (N.eqb c 47).

(** [[^\/@]] *)
Definition not_slash_at (c : code_unit) : bool :=
  negb (N.eqb c 47 || N.eqb c 64).

(** [/^(?<install>(?<scope>@[^\/]+\/)?(?<name>[^\/@]+)(?<version>@[^\/]+)?)(?<subpath>\/.+)?$/] *)
Definition packageSpecPattern : regex :=
  Bol ;;;
  Group "install"
    (Opt (Group "scope" (chr "@" ;;; Many1 not_slash ;;; chr "/")) ;;;
     Group "name" (Many1 not_slash_at) ;;;
     Opt (Group "version" (chr "@" ;;; Many1 not_slash))) ;;;
  Opt (Group "subpath" (chr "/" ;;; Many1 dot)) ;;;
  Eol.

Definition parsePackageSpec (spec : jsstring) : Package :=
  let match_ := exec packageSpecPattern spec in
  {| install := group_or_empty match_ "install";
     scope := group_or_empty match_ "scope";
     name := group_or_empty match_ "name";
     version := group_or_empty match_ "version";
     subpath := group_or_empty match_ "subpath" |}.

(** ** The argument mapper ([src/lib.ts], lines 21-58) *)

Record PackageToInstall : Type := mkPackageToInstall {
  toPackage :> Package;
  spec : jsstring;
  alias : jsstring
}.

Record InstalledPackage : Type := mkInstalledPackage {
  toInstall :> PackageToInstall;
  uuid : jsstring;
  installedPath : jsstring
}.

(** [a[i]] where the source indexes an array it knows to be long enough;
    out of range JavaScript gives [undefined], which no caller below can
    reach (see [split_length_includes]). *)
Definition at_index (a : list jsstring) (i : nat) : jsstring := nth i a [].

Definition getPackagesToInstallFromArgv (argv : list jsstring) : list PackageToInstall :=
  map (fun arg =>
    let hasAlias := includes (cu "=") arg in
    let spec := if hasAlias then at_index (split (cu "=") arg) 1 else arg in
    let parsedSpec := parsePackageSpec spec in
    {| spec := spec;
       alias := if hasAlias then at_index (split (cu "=") arg) 0 else name parsedSpec;
       toPackage := parsedSpec |}) argv.

(** ** The validator ([src/lib.ts], lines 101-130) *)

Definition JS_RESERVED_WORDS : list jsstring := map js [
  "break"; "case"; "catch"; "class"; "const"; "continue"; "debugger"; "default"; "delete"; "do";
  "else"; "enum"; "export"; "extends"; "false"; "finally"; "for"; "function"; "if"; "import";
  "in"; "instanceof"; "let"; "new"; "null"; "return"; "super"; "switch"; "this"; "throw";
  "true"; "try"; "typeof"; "var"; "void"; "while"; "with"; "yield"
]%string.

(** [[a-zA-Z_$]] *)
Definition id_start (c : code_unit) : bool :=
  in_range "a" "z" c || in_range "A" "Z" c || N.eqb c (cu "_") || N.eqb c (cu "$").

(** [[a-zA-Z0-9_$]] *)
Definition id_part (c : code_unit) : bool :=
  in_range "a" "z" c || in_range "A" "Z" c || in_range "0" "9" c ||
  N.eqb c (cu "_") || N.eqb c (cu "$").

(** [/^[a-zA-Z_$][a-zA-Z0-9_$]*$/] *)
Definition identifierPattern : regex :=
  Bol ;;; Class id_start ;;; Many0 id_part ;;; Eol.

Definition isValidJsVariableName (name : jsstring) : bool :=
  if bool_decide (name ∈ JS_RESERVED_WORDS) then false
  else test identifierPattern name.

Inductive error : Type :=
| InvalidAlias (alias : jsstring)
| InvalidPackageName (packageName : jsstring)
| NamesNotUnique
| InstallFailed (install : jsstring)
| CreateDirectoryFailed (path : jsstring)
| ImportFailed (specifier : jsstring).

Inductive outcome (A : Type) : Type :=
| Returns (a : A)
| Throws (e : error).

Arguments Returns {A} a.

Arguments Throws {A} e.

(** [xs.forEach(f)] where [f] may throw: the first throw ends the loop. *)
Fixpoint forEach {A} (f : A -> outcome unit) (xs : list A) : outcome unit :=
  match xs with
  | [] => Returns tt
  | x :: rest =>
      match f x with
      | Returns _ => forEach f rest
      | Throws e => Throws e
      end
  end.

(** [r.errors?.length] as a condition: true for a nonempty [errors]. *)
Definition has_errors (errors : option (list jsstring)) : bool :=
  match errors with
  | Some (_ :: _) => true
  | Some [] | None => false
  end.

Section Validator.

(** The [errors] field of the result of [validate-npm-package-name]. *)
Variable validateNpmPackageName : jsstring -> option (list jsstring).

Definition validatePackageNames
    (newPackages : list PackageToInstall)
    (alreadyInstalled : list InstalledPackage) : outcome unit :=
  match
    forEach (fun pkg : PackageToInstall =>
      if negb (isValidJsVariableName (alias pkg)) then Throws (InvalidAlias (alias pkg))
      else
        let packageName := scope pkg ++ name pkg in
        if has_errors (validateNpmPackageName packageName)
        then Throws (InvalidPackageName packageName)
        else Returns tt) newPackages
  with
  | Throws e => Throws e
  | Returns _ =>
      let allAliases := map alias (newPackages ++ map toInstall alreadyInstalled) in
      let uniqueAliases : gset jsstring := list_to_set allAliases in
      if negb (Nat.eqb (List.length allAliases) (size uniqueAliases))
      then Throws NamesNotUnique
      else Returns tt
  end.

End Validator.

(** ** The host and the session state

    Console output is not modelled.  Every other effect of the sources is
    an [event] appended to the trace; what the host answers may depend on
    everything that happened before. *)

(** JavaScript values, as far as truthiness tells them apart; numbers are
    the integers and NaN. *)
#[warnings="-register-all"]
Inductive value : Type :=
| VUndefined
| VNull
| VBool (b : bool)
| VNumber (n : Z)
| VNaN
| VString (s : jsstring)
| VObject (id : nat)
| VNamespace (exports : list (jsstring * value)).

(** A module namespace object: its exports, in key order. *)
Abbreviation namespace := (list (jsstring * value)).

Inductive event : Type :=
| EvRandomUUID (uuid : jsstring)
| EvExec (command : jsstring) (ok : bool)
| EvMkdtemp (prefix : jsstring) (created : option jsstring)
| EvRm (path : jsstring)
| EvImport (url : option jsstring) (loaded : option namespace).

Record Host : Type := mkHost {
  validateNpmPackageName : jsstring -> option (list jsstring);
  stringArgv : jsstring -> list jsstring;
  tmpdir : jsstring;
  join : list jsstring -> jsstring;
  resolve : list jsstring -> jsstring;
  randomUUID : list event -> jsstring;
  execAsync : list event -> jsstring -> bool;
  mkdtemp : list event -> jsstring -> option jsstring;
  importMetaResolve : list event -> jsstring -> jsstring -> option jsstring;
  dynamicImport : list event -> jsstring -> option namespace
}.

Record state : Type := mkState {
  trace : list event;
  installedPackages : list InstalledPackage;
  context : gmap jsstring value
}.

Module Effects.

(** A computation that reads and writes the state and may throw; a throw
    keeps the state reached. *)
Definition M (A : Type) : Type := state -> outcome A * state.

Definition ret {A} (a : A) : M A := fun st => (Returns a, st).

Definition throw {A} (e : error) : M A := fun st => (Throws e, st).

Definition bind {A B} (m : M A) (k : A -> M B) : M B :=
  fun st =>
    match m st with
    | (Returns a, st') => k a st'
    | (Throws e, st') => (Throws e, st')
    end.

Definition try_catch {A} (body : M A) (handler : error -> M A) : M A :=
  fun st =>
    match body st with
    | (Returns a, st') => (Returns a, st')
    | (Throws e, st') => handler e st'
    end.

Definition lift {A} (o : outcome A) : M A := fun st => (o, st).

Definition emit (e : event) : M unit :=
  fun st => (Returns tt, mkState (trace st ++ [e]) (installedPackages st) (context st)).

Definition get_trace : M (list event) := fun st => (Returns (trace st), st).

Definition get_installed : M (list InstalledPackage) :=
  fun st => (Returns (installedPackages st), st).

Definition set_installed (l : list InstalledPackage) : M unit :=
  fun st => (Returns tt, mkState (trace st) l (context st)).

Definition set_context (c : gmap jsstring value) : M unit :=
  fun st => (Returns tt, mkState (trace st) (installedPackages st) c).

(** [Promise.all] over promises started in list order.  Every one is
    started and runs to its end, whatever becomes of the others; the
    result is the list of the values when all fulfil and a throw when one
    rejects.  Two things are abstracted: the throw is that of the first
    rejection in list order, where [Promise.all] delivers the first in
    time; and the throw is delivered once every promise has settled,
    where [Promise.all] delivers it at once, the other promises still
    running.  The state after [promise_all] is thus the state once the
    whole batch has settled, and the order of the trace is the order in
    which the effects were started. *)
Fixpoint promise_all {A} (ms : list (M A)) : M (list A) :=
  match ms with
  | [] => ret []
  | m :: rest =>
      fun st =>
        let '(r, st1) := m st in
        let '(rs, st2) := promise_all rest st1 in
        (match r, rs with
         | Returns a, Returns l => Returns (a :: l)
         | Throws e, _ => Throws e
         | Returns _, Throws e => Throws e
         end, st2)
  end.

(** How a promise settles, as a value: what an [await] on it will
    deliver. *)
Definition settle {A} (m : M A) : M (outcome A) :=
  fun st => let '(r, st') := m st in (Returns r, st').

End Effects.
Export Effects.

Notation "'do' x <- m ;; k" := (bind m (fun x => k))
  (at level 10, x name, m at level 99, k at level 200, only parsing).

(** ** Installing and importing ([src/lib.ts], lines 60-99 and 132-234; [src/index.ts]) *)

(** JavaScript truthiness. *)
Definition truthy (v : value) : bool :=
  match v with
  | VUndefined | VNull | VNaN => false
  | VBool b => b
  | VNumber n => negb (Z.eqb n 0)
  | VString s => match s with [] => false | _ :: _ => true end
  | VObject _ | VNamespace _ => true
  end.

(** [Object.keys(pkg)] *)
Definition object_keys (pkg : namespace) : list jsstring := map fst pkg.

(** [pkg[key]] *)
Fixpoint get_property (pkg : namespace) (key : jsstring) : value :=
  match pkg with
  | [] => VUndefined
  | (k, v) :: rest => if bool_decide (k = key) then v else get_property rest key
  end.

(** The value [importPackageIntoContext] binds to the alias
    ([src/lib.ts], lines 84-91). *)
Definition bound_value (pkg : namespace) : value :=
  let onlyHasDefaultExport :=
    if Nat.eqb (List.length (object_keys pkg)) 1
    then get_property pkg (js "default")
    else VBool false in
  if truthy onlyHasDefaultExport then get_property pkg (js "default")
  else VNamespace pkg.

Section Session.

Variable host : Host.

Definition createInstallationDirectory : M jsstring :=
  let path := join host [tmpdir host; js "repl-with-"] in
  do tr <- get_trace ;;
  let created := mkdtemp host tr path in
  do _ <- emit (EvMkdtemp path created) ;;
  match created with
  | Some dir => ret dir
  | None => throw (CreateDirectoryFailed path)
  end.

Definition installPackage (packageToInstall : PackageToInstall)
    (installPath : jsstring) : M InstalledPackage :=
  do tr <- get_trace ;;
  let uuid := randomUUID host tr in
  do _ <- emit (EvRandomUUID uuid) ;;
  let command :=
    js "npm install -g " ++ uuid ++ js "@npm:" ++ install packageToInstall ++
    js " --prefix " ++ installPath in
  do tr' <- get_trace ;;
  let ok := execAsync host tr' command in
  do _ <- emit (EvExec command ok) ;;
  if ok then
    ret {| toInstall := packageToInstall;
           uuid := uuid;
           installedPath := join host [installPath; js "lib"; js "node_modules"; uuid] |}
  else throw (InstallFailed (install packageToInstall)).

Definition installPackages (packagesToInstall : list PackageToInstall)
    (installPath : jsstring) : M (list InstalledPackage) :=
  promise_all (map (fun pkg => installPackage pkg installPath) packagesToInstall).

Definition importPackageIntoContext (installedPackage : InstalledPackage) : M unit :=
  let nodeModulesPath :=
    js "file://" ++ resolve host [installedPath installedPackage; js ".."] in
  do tr <- get_trace ;;
  let resolvedPath :=
    importMetaResolve host tr (uuid installedPackage ++ subpath installedPackage)
      nodeModulesPath in
  let loaded :=
    match resolvedPath with
    | Some url => dynamicImport host tr url
    | None => None
    end in
  do _ <- emit (EvImport resolvedPath loaded) ;;
  match loaded with
  | None => throw (ImportFailed (uuid installedPackage ++ subpath installedPackage))
  | Some pkg =>
      fun st =>
        set_context (<[alias installedPackage := bound_value pkg]> (context st)) st
  end.

Fixpoint importPackagesIntoContext (packages : list InstalledPackage) : M unit :=
  match packages with
  | [] => ret tt
  | pkg :: rest =>
      do _ <- importPackageIntoContext pkg ;;
      importPackagesIntoContext rest
  end.

(** [cleanup] issues the removal of the install root; a removal that
    fails is not modelled. *)
Definition cleanup (path : jsstring) : M unit := emit (EvRm path).

(** [repl.start]: the shell comes up with a fresh context. *)
Definition repl_start : M unit := set_context ∅.

(** What [setupReplServer] leaves in the state: its handlers (see
    [handle] below) share the list it is given, and [r] is bound to the
    shell, an object. *)
Definition setupReplServer (installedPackages : list InstalledPackage) : M unit :=
  do _ <- set_installed installedPackages ;;
  fun st => set_context (<[js "r" := VObject 0]> (context st)) st.

(** [main] of [src/index.ts]; the result is the install root of the
    session that has started. *)
Definition main (process_argv : list jsstring) : M jsstring :=
  do installPath <- createInstallationDirectory ;;
  try_catch
    (let packagesInArgv := drop 2 process_argv in
     let packagesToImport := getPackagesToInstallFromArgv packagesInArgv in
     do _ <- lift (validatePackageNames (validateNpmPackageName host) packagesToImport []) ;;
     do installed <- installPackages packagesToImport installPath ;;
     do _ <- repl_start ;;
     do _ <- setupReplServer installed ;;
     do _ <- importPackagesIntoContext installed ;;
     ret installPath)
    (fun err => do _ <- cleanup installPath ;; throw err).

Definition importAdditionalPackagesViaCommand (args : jsstring)
    (installPath : jsstring) : M unit :=
  try_catch
    (let argv := stringArgv host args in
     let newPackages := getPackagesToInstallFromArgv argv in
     do installed <- get_installed ;;
     do _ <- lift (validatePackageNames (validateNpmPackageName host) newPackages installed) ;;
     do newlyInstalledPackages <- installPackages newPackages installPath ;;
     do installed' <- get_installed ;;
     do _ <- set_installed (installed' ++ newlyInstalledPackages) ;;
     do _ <- importPackagesIntoContext newlyInstalledPackages ;;
     ret tt)
    (fun err => ret tt).

(** What reaches the handlers that [setupReplServer] registers: the
    three commands and the reset of the context.  (The exit handler ends
    the session with [cleanup].) *)
Inductive command : Type :=
| CmdPackages
| CmdImport (args : jsstring)
| CmdDebug
| OnReset.

Definition handle (installPath : jsstring) (c : command) : M unit :=
  match c with
  | CmdPackages | CmdDebug => ret tt
  | CmdImport args => importAdditionalPackagesViaCommand args installPath
  | OnReset =>
      do _ <- set_context ∅ ;;
      do installed <- get_installed ;;
      importPackagesIntoContext installed
  end.

(** The handlers run one after the other, each to its end: the session
    of a user who enters a line once the prompt of the line before has
    come back.  The shell itself does not wait for a handler
    ([src/lib.ts], lines 192-200, hand the promise of the action to the
    shell, which drops it); [overlapping_imports] below is a session
    where a line is entered earlier. *)
Fixpoint run_commands (installPath : jsstring) (cs : list command) : M unit :=
  match cs with
  | [] => ret tt
  | c :: rest =>
      do _ <- handle installPath c ;;
      run_commands installPath rest
  end.

(** The handler of [.import] up to its first suspension ([src/lib.ts],
    lines 160-166): the tokens are validated against the list as it is
    now and the installations are started; the handler then waits for
    them at the [await] of line 166, and the shell reads on.  The result
    is how that wait will end (a validation that throws ends it at
    once); an installation is recorded where it is started, with the
    result it will have. *)
Definition import_until_await (args : jsstring) (installPath : jsstring)
    : M (outcome (list InstalledPackage)) :=
  settle
    (let argv := stringArgv host args in
     let newPackages := getPackagesToInstallFromArgv argv in
     do installed <- get_installed ;;
     do _ <- lift (validatePackageNames (validateNpmPackageName host) newPackages installed) ;;
     installPackages newPackages installPath).

(** The same handler from that [await] on ([src/lib.ts], lines 166-177):
    the installed packages are pushed on the list as it is by then, and
    imported; an error is caught. *)
Definition import_after_await (settled : outcome (list InstalledPackage)) : M unit :=
  try_catch
    (do newlyInstalledPackages <- lift settled ;;
     do installed' <- get_installed ;;
     do _ <- set_installed (installed' ++ newlyInstalledPackages) ;;
     do _ <- importPackagesIntoContext newlyInstalledPackages ;;
     ret tt)
    (fun err => ret tt).

(** Two [.import] lines, the second entered while the installations of
    the first are running: both handlers reach their [await] before
    either goes on. *)
Definition overlapping_imports (args1 args2 : jsstring) (installPath : jsstring) : M unit :=
  do settled1 <- import_until_await args1 installPath ;;
  do settled2 <- import_until_await args2 installPath ;;
  do _ <- import_after_await settled1 ;;
  import_after_await settled2.

End Session.

(** ** The listing ([src/lib.ts], lines 218-228)

    What [listPackages] writes to the console, one string per call of
    [console.log]; the prompt it may redisplay is not modelled. *)

(** The line of one package: [`- ${pkg.alias} = ${pkg.install}`]. *)
Definition package_line (pkg : InstalledPackage) : jsstring :=
  js "- " ++ alias pkg ++ js " = " ++ install pkg.

Definition listPackages (packages : list InstalledPackage) : list jsstring :=
  [[]; [55357; 56550] ++ js " Available packages:"] ++
  map package_line packages ++
  [[]].

(** * The vocabulary of the statements *)

(** ** What the matcher computes

    [den r i x rest c c'] reads: started at index [i] with captures [c],
    the pattern [r] can consume the text [x], leaving [rest] ahead, and
    end with captures [c'].  [run] lists exactly these outcomes. *)

Module RegexSemantics.

Definition all_in (p : code_unit -> bool) (x : jsstring) : Prop :=
  Forall (fun c => p c = true) x.

Fixpoint den (r : regex) (i : nat) (x rest : jsstring)
    (c c' : gmap string jsstring) : Prop :=
  match r with
  | Class p => (exists a, x = [a] /\ p a = true) /\ c' = c
  | Many1 p => x <> [] /\ all_in p x /\ c' = c
  | Many0 p => all_in p x /\ c' = c
  | Seq r1 r2 =>
      exists x1 x2 cm, x = x1 ++ x2 /\
        den r1 i x1 (x2 ++ rest) c cm /\
        den r2 (i + List.length x1) x2 rest cm c'
  | Opt r => den r i x rest c c' \/ (x = [] /\ c' = c)
  | Group n r => exists cm, den r i x rest c cm /\ c' = <[n := x]> cm
  | Bol => x = [] /\ i = 0%nat /\ c' = c
  | Eol => x = [] /\ rest = [] /\ c' = c
  end.

(** [st'] lies [x] further than [st] in the same input. *)
Definition spans (st : mstate) (x : jsstring) (st' : mstate) : Prop :=
  ahead st = x ++ ahead st' /\
  endIndex st' = (endIndex st + List.length x)%nat.

End RegexSemantics.
Export RegexSemantics.

(** ** The specifier grammar, stated on its own

    [(@scope/)?name(@version)?(/subpath)?], where a scope is [@], one or more characters other
    than [/], then [/]; a name is one or more characters other than [/]
    and [@]; a version is [@] and one or more characters other than [/];
    a subpath is [/] and one or more characters other than line
    terminators. *)

Module Grammar.

(** The code units of [/] and [@]. *)
Definition slash : code_unit := 47.
Definition at_sign : code_unit := 64.

(** LF, CR, U+2028 and U+2029. *)
Definition line_terminator (c : code_unit) : Prop :=
  c = 10 \/ c = 13 \/ c = 8232 \/ c = 8233.

Definition is_scope (sc : jsstring) : Prop :=
  exists x, x <> [] /\ Forall (fun c => c <> slash) x /\
    sc = at_sign :: x ++ [slash].

Definition is_name (nm : jsstring) : Prop :=
  nm <> [] /\ Forall (fun c => c <> slash /\ c <> at_sign) nm.

Definition is_version (v : jsstring) : Prop :=
  exists x, x <> [] /\ Forall (fun c => c <> slash) x /\ v = at_sign :: x.

Definition is_subpath (sp : jsstring) : Prop :=
  exists x, x <> [] /\ Forall (fun c => ~ line_terminator c) x /\ sp = slash :: x.

Definition optional (P : jsstring -> Prop) (x : jsstring) : Prop :=
  x = [] \/ P x.

Definition specifier_parts (sc nm v sp : jsstring) : Prop :=
  optional is_scope sc /\ is_name nm /\
  optional is_version v /\ optional is_subpath sp.

Definition matches_grammar (s : jsstring) : Prop :=
  exists sc nm v sp, specifier_parts sc nm v sp /\ s = sc ++ nm ++ v ++ sp.

End Grammar.
Export Grammar.

Definition empty_package : Package := mkPackage [] [] [] [] [].

(** ** Auxiliary notions for the parser proofs *)

(** The captures an optional group leaves: absent when it matched
    nothing. *)
Definition opt_ins (n : string) (x : jsstring) (c : gmap string jsstring) :
    gmap string jsstring :=
  match x with [] => c | _ :: _ => <[n := x]> c end.

(** The part of [packageSpecPattern] after [^]. *)
Definition packageSpecBody : regex :=
  Group "install"
    (Opt (Group "scope" (chr "@" ;;; Many1 not_slash ;;; chr "/")) ;;;
     Group "name" (Many1 not_slash_at) ;;;
     Opt (Group "version" (chr "@" ;;; Many1 not_slash))) ;;;
  Opt (Group "subpath" (chr "/" ;;; Many1 dot)) ;;;
  Eol.

(** The captures of a match whose groups took the texts [sc], [nm], [v]
    and [sp]. *)
Definition spec_captures (sc nm v sp : jsstring) : gmap string jsstring :=
  opt_ins "subpath" sp
    (<["install" := sc ++ nm ++ v]>
       (opt_ins "version" v (<["name" := nm]> (opt_ins "scope" sc ∅)))).

(** [r] does not go on with a character of the class [p]. *)
Definition stops (p : code_unit -> bool) (r : jsstring) : Prop :=
  match r with [] => True | a :: _ => p a = false end.

(** ** The two sides of the first separator *)

(** The text before the first [c] (all of [s] when there is none). *)
Fixpoint before_first (c : code_unit) (s : jsstring) : jsstring :=
  match s with
  | [] => []
  | x :: t => if N.eqb x c then [] else x :: before_first c t
  end.

(** The text after the first [c] (empty when there is none). *)
Fixpoint after_first (c : code_unit) (s : jsstring) : jsstring :=
  match s with
  | [] => []
  | x :: t => if N.eqb x c then t else after_first c t
  end.

(** ** Identifiers *)

Definition letter (c : code_unit) : Prop :=
  (65 <= c <= 90) \/ (97 <= c <= 122).

Definition digit (c : code_unit) : Prop := 48 <= c <= 57.

(** A letter, [_] or [$]. *)
Definition identifier_start (c : code_unit) : Prop :=
  letter c \/ c = 95 \/ c = 36.

Definition identifier_part (c : code_unit) : Prop :=
  identifier_start c \/ digit c.

(** The identifier grammar the validator enforces: an identifier start
    followed by identifier parts. *)
Definition is_identifier (s : jsstring) : Prop :=
  exists c t, s = c :: t /\ identifier_start c /\ Forall identifier_part t.

(** ** Variable names of the language

    What ECMAScript itself takes for a variable name, stated apart from
    the validator: an IdentifierName that is no ReservedWord.  The
    code units are those up to U+00FF, with the two joiners; beyond them
    the grammar follows the Unicode properties ID_Start and ID_Continue,
    which are left out here. *)

(** The letters of U+0080..U+00FF with the property ID_Start. *)
Definition latin1_letter (c : code_unit) : Prop :=
  c = 170 \/ c = 181 \/ c = 186 \/
  (192 <= c <= 214) \/ (216 <= c <= 246) \/ (248 <= c <= 255).

(** IdentifierStart: a code unit with ID_Start, [$] or [_]. *)
Definition es_identifier_start (c : code_unit) : Prop :=
  letter c \/ latin1_letter c \/ c = 36 \/ c = 95.

(** IdentifierPart: a code unit with ID_Continue (the starts, the digits,
    the middle dot), [$], or one of the joiners U+200C and U+200D. *)
Definition es_identifier_part (c : code_unit) : Prop :=
  es_identifier_start c \/ digit c \/ c = 183 \/ c = 8204 \/ c = 8205.

(** IdentifierName, over these code units. *)
Definition es_identifier_name (s : jsstring) : Prop :=
  exists c t, s = c :: t /\ es_identifier_start c /\ Forall es_identifier_part t.

(** ReservedWord of ECMAScript. *)
Definition ES_RESERVED_WORDS : list jsstring :=
  map js
    ["await"; "break"; "case"; "catch"; "class"; "const"; "continue"; "debugger";
     "default"; "delete"; "do"; "else"; "enum"; "export"; "extends"; "false";
     "finally"; "for"; "function"; "if"; "import"; "in"; "instanceof"; "new";
     "null"; "return"; "super"; "switch"; "this"; "throw"; "true"; "try";
     "typeof"; "var"; "void"; "while"; "with"; "yield"]%string.

(** A name the language accepts for a variable. *)
Definition es_variable_name (s : jsstring) : Prop :=
  es_identifier_name s /\ s ∉ ES_RESERVED_WORDS.

(** ** Batches and sessions *)

(** The check of one record inside the loop of [validatePackageNames]. *)
Definition record_ok (validateNpmPackageName : jsstring -> option (list jsstring))
    (pkg : PackageToInstall) : Prop :=
  isValidJsVariableName (alias pkg) = true /\
  has_errors (validateNpmPackageName (scope pkg ++ name pkg)) = false.

Definition all_aliases (newPackages : list PackageToInstall)
    (alreadyInstalled : list InstalledPackage) : list jsstring :=
  map alias (newPackages ++ map toInstall alreadyInstalled).

(** The events that install something: the runs of the package manager. *)
Definition is_install_event (e : event) : bool :=
  match e with
  | EvExec _ _ => true
  | _ => false
  end.

(** The aliases of the running list. *)
Definition session_aliases (st : state) : list jsstring :=
  map (fun p : InstalledPackage => alias p) (installedPackages st).

(** An event that is not a failed run of the package manager. *)
Definition exec_succeeded (e : event) : Prop :=
  match e with
  | EvExec _ ok => ok = true
  | _ => True
  end.

(** The three ways the [.import] handler can go. *)
Inductive import_result (host : Host) (args path : jsstring) (st st' : state) : Prop :=
| import_rejected e :
    validatePackageNames (validateNpmPackageName host)
      (getPackagesToInstallFromArgv (stringArgv host args)) (installedPackages st) = Throws e ->
    st' = st ->
    import_result host args path st st'
| import_install_failed e evs :
    validatePackageNames (validateNpmPackageName host)
      (getPackagesToInstallFromArgv (stringArgv host args)) (installedPackages st) = Returns tt ->
    installPackages host (getPackagesToInstallFromArgv (stringArgv host args)) path st =
      (Throws e, st') ->
    st' = mkState (trace st ++ evs) (installedPackages st) (context st) ->
    import_result host args path st st'
| import_installed newly st1 :
    validatePackageNames (validateNpmPackageName host)
      (getPackagesToInstallFromArgv (stringArgv host args)) (installedPackages st) = Returns tt ->
    installPackages host (getPackagesToInstallFromArgv (stringArgv host args)) path st =
      (Returns newly, st1) ->
    map toInstall newly = getPackagesToInstallFromArgv (stringArgv host args) ->
    installedPackages st' = installedPackages st ++ newly ->
    import_result host args path st st'.

(** ** A host for the examples

    Names are rejected when empty, arguments are separated by single
    spaces, the package manager fails on commands that contain [!], and
    every module loaded has a single default export. *)

Definition join_path (parts : list jsstring) : jsstring :=
  match parts with
  | [] => []
  | p :: rest => fold_left (fun acc q => acc ++ cu "/" :: q) rest p
  end.

Definition sample_validator (name : jsstring) : option (list jsstring) :=
  match name with
  | [] => Some [js "name length must be greater than zero"]
  | _ :: _ => None
  end.

Definition sample_host : Host := {|
  validateNpmPackageName := sample_validator;
  stringArgv := fun args =>
    List.filter (fun t => negb (Nat.eqb (List.length t) 0)) (split (cu " ") args);
  tmpdir := js "/tmp";
  join := join_path;
  resolve := join_path;
  randomUUID := fun tr => js "uuid-" ++ repeat (cu "i") (List.length tr);
  execAsync := fun _ command => negb (includes (cu "!") command);
  mkdtemp := fun _ prefix => Some (prefix ++ js "XXXXXX");
  importMetaResolve := fun _ specifier parent => Some (parent ++ cu "/" :: specifier);
  dynamicImport := fun _ _ => Some [(js "default", VObject 0)]
|}.

(** The same host, loading the module [pkg] whatever is imported. *)
Definition host_loading (pkg : namespace) : Host := {|
  validateNpmPackageName := validateNpmPackageName sample_host;
  stringArgv := stringArgv sample_host;
  tmpdir := tmpdir sample_host;
  join := join sample_host;
  resolve := resolve sample_host;
  randomUUID := randomUUID sample_host;
  execAsync := execAsync sample_host;
  mkdtemp := mkdtemp sample_host;
  importMetaResolve := importMetaResolve sample_host;
  dynamicImport := fun _ _ => Some pkg
|}.

(** An installed package bound to the alias [a]. *)
Definition installed_as (a : jsstring) : InstalledPackage :=
  {| toInstall := {| toPackage := mkPackage a [] a [] []; spec := a; alias := a |};
     uuid := js "uuid-";
     installedPath := js "/tmp/repl-with-XXXXXX/lib/node_modules/uuid-" |}.

(** The state before [main] runs. *)
Definition initial_state : state := mkState [] [] ∅.

(** ** Installations and events, for the further properties *)

(** The command line [installPackage] hands to the shell. *)
Definition npm_command (uuid install installPath : jsstring) : jsstring :=
  js "npm install -g " ++ uuid ++ js "@npm:" ++ install ++ js " --prefix " ++ installPath.

(** One installation of a batch: the package, the identifier drawn for it
    and whether the package manager succeeded. *)
Definition installation : Type := (PackageToInstall * jsstring * bool)%type.

Definition installation_package (i : installation) : PackageToInstall := i.1.1.

Definition installation_ok (i : installation) : bool := i.2.

(** The two events of one installation. *)
Definition installation_events (installPath : jsstring) (i : installation) : list event :=
  [EvRandomUUID i.1.2; EvExec (npm_command i.1.2 (install i.1.1) installPath) i.2].

(** The record [installPackage] returns for a successful installation. *)
Definition installation_record (host : Host) (installPath : jsstring)
    (i : installation) : InstalledPackage :=
  {| toInstall := i.1.1;
     uuid := i.1.2;
     installedPath := join host [installPath; js "lib"; js "node_modules"; i.1.2] |}.

Definition is_import_event (e : event) : bool :=
  match e with
  | EvImport _ _ => true
  | _ => false
  end.

Definition is_rm_event (e : event) : bool :=
  match e with
  | EvRm _ => true
  | _ => false
  end.

(** The aliases of a list of installed packages. *)
Definition aliases_of (packages : list InstalledPackage) : list jsstring :=
  map (fun p : InstalledPackage => alias p) packages.

(** The context after the modules [loads] were bound, in order, to the
    aliases of [pkgs]. *)
Definition bind_all (ctx : gmap jsstring value) (pkgs : list InstalledPackage)
    (loads : list (jsstring * namespace)) : gmap jsstring value :=
  foldl (fun c (pl : InstalledPackage * (jsstring * namespace)) =>
           <[alias pl.1 := bound_value pl.2.2]> c) ctx (zip pkgs loads).

Definition load_event (l : jsstring * namespace) : event :=
  EvImport (Some l.1) (Some l.2).

(** The sample host, except that only the first module loads. *)
Definition host_loading_once : Host := {|
  validateNpmPackageName := validateNpmPackageName sample_host;
  stringArgv := stringArgv sample_host;
  tmpdir := tmpdir sample_host;
  join := join sample_host;
  resolve := resolve sample_host;
  randomUUID := randomUUID sample_host;
  execAsync := execAsync sample_host;
  mkdtemp := mkdtemp sample_host;
  importMetaResolve := importMetaResolve sample_host;
  dynamicImport := fun tr _ =>
    if existsb is_import_event tr then None else Some [(js "default", VObject 0)]
|}.


(** * Examples from the test suite *)

Example parse_module :
  parsePackageSpec (js "module") =
  mkPackage (js "module") [] (js "module") [] [].
Proof. vm_compute. reflexivity. Qed.

Example parse_full :
  parsePackageSpec (js "@org/module@4.0.0/subpath") =
  mkPackage (js "@org/module@4.0.0") (js "@org/") (js "module") (js "@4.0.0") (js "/subpath").
Proof. vm_compute. reflexivity. Qed.

Example mapper_test :
  map (fun p => (alias p, version p)) (getPackagesToInstallFromArgv [js "module"; js "m=module@2.0"]) =
  [(js "module", []); (js "m", js "@2.0")].
Proof. vm_compute. reflexivity. Qed.

Example class_rejected : isValidJsVariableName (js "class") = false.
Proof. vm_compute. reflexivity. Qed.

Example lodash_twice :
  validatePackageNames (fun _ => None)
    (getPackagesToInstallFromArgv [js "lodash@3.0.0"; js "lodash@4.0.0"]) [] = Throws NamesNotUnique.
Proof. vm_compute. reflexivity. Qed.

(** * Lemmas *)

(** ** The matcher against its semantics *)

Section MatcherFacts.

Lemma elem_of_many p i s caps st :
  st ∈ many p i s caps <->
  exists x, all_in p x /\ s = x ++ ahead st /\
    endIndex st = (i + List.length x)%nat /\ captures st = caps.
Proof.
  revert i. induction s as [|a t IH]; intros i; simpl.
  - rewrite list_elem_of_singleton. split.
    + intros ->. exists []. simpl. repeat split; [constructor | lia].
    + intros (x & _ & Hx & Hi & Hc). destruct st as [j a c]. simpl in *.
      symmetry in Hx. apply app_eq_nil in Hx as [-> ->]. simpl in Hi.
      subst. f_equal. lia.
  - rewrite elem_of_app, list_elem_of_singleton. split.
    + intros [Hin | ->].
      * destruct (p a) eqn:Hp; [|by apply elem_of_nil in Hin].
        apply IH in Hin as (x & Hall & -> & Hi & Hc).
        exists (a :: x). simpl. repeat split; auto using Forall_cons_2.
        -- constructor; assumption.
        -- lia.
      * exists []. simpl. repeat split; [constructor | lia].
    + intros (x & Hall & Hx & Hi & Hc). destruct x as [|b x].
      * right. destruct st as [j s' c]. simpl in *. subst. f_equal. lia.
      * left. simpl in Hx. injection Hx as <- ->.
        apply Forall_cons_1 in Hall as [Hp Hall]. rewrite Hp.
        apply IH. exists x. simpl in Hi. repeat split; auto. lia.
Qed.

(** The matcher is sound and complete for [den]. *)
Theorem run_den r : forall st st',
  st' ∈ run r st <->
  exists x, spans st x st' /\
    den r (endIndex st) x (ahead st') (captures st) (captures st').
Proof.
  unfold spans.
  induction r as [p|p|p|r1 IH1 r2 IH2|r IH|n r IH| |];
    intros [i s c] [i' s' c']; simpl.
  - destruct s as [|a t].
    + split; [by intros ?%elem_of_nil|].
      intros (x & [Hx _] & (b & -> & _) & _). discriminate.
    + split.
      * destruct (p a) eqn:Hp; [|by intros ?%elem_of_nil].
        intros Hin%list_elem_of_singleton. injection Hin as -> -> ->.
        exists [a]. simpl. repeat split; eauto. lia.
      * intros (x & [Hx Hi] & (b & -> & Hp) & ->). simpl in *.
        injection Hx as <- <-. rewrite Hp. apply list_elem_of_singleton.
        unfold advance. simpl. f_equal. lia.
  - destruct s as [|a t].
    + split; [by intros ?%elem_of_nil|].
      intros (x & [Hx _] & Hne & _). symmetry in Hx.
      apply app_eq_nil in Hx as [-> _]. done.
    + split.
      * destruct (p a) eqn:Hp; [|by intros ?%elem_of_nil].
        intros (x & Hall & -> & Hi & Hc)%elem_of_many. simpl in *.
        exists (a :: x). simpl. repeat split; auto; try lia; try done.
        constructor; assumption.
      * intros (x & [Hx Hi] & Hne & Hall & ->). destruct x as [|b x]; [done|].
        simpl in *. injection Hx as <- ->.
        apply Forall_cons_1 in Hall as [Hp Hall]. rewrite Hp.
        apply elem_of_many. exists x. simpl. repeat split; auto. lia.
  - rewrite elem_of_many. simpl. split.
    + intros (x & Hall & -> & -> & ->). exists x. repeat split; auto.
    + intros (x & [-> ->] & Hall & ->). exists x. repeat split; auto.
  - rewrite list_elem_of_bind. split.
    + intros (m & (x2 & [Hx2 Hi2] & H2)%IH2 & (x1 & [Hx1 Hi1] & H1)%IH1).
      simpl in *. exists (x1 ++ x2). rewrite Hx1, Hx2, Hi2, Hi1, <- app_assoc.
      rewrite length_app. repeat split; [lia|].
      exists x1, x2, (captures m). rewrite Hx2 in H1. rewrite Hi1 in H2.
      repeat split; auto.
    + intros (x & [-> ->] & x1 & x2 & cm & -> & H1 & H2).
      exists (MState (i + List.length x1) (x2 ++ s') cm). split.
      * apply IH2. exists x2. simpl. rewrite length_app.
        repeat split; auto. lia.
      * apply IH1. exists x1. simpl. rewrite <- app_assoc.
        repeat split; auto.
  - rewrite elem_of_app, list_elem_of_singleton, IH. simpl. split.
    + intros [(x & Hsp & H) | Heq]; [exists x; auto|].
      injection Heq as -> -> ->. exists []. simpl. repeat split; auto.
    + intros (x & [-> ->] & [H | [-> ->]]).
      * left. exists x. repeat split; auto.
      * right. simpl. f_equal. lia.
  - rewrite list_elem_of_fmap. split.
    + intros (m & Heq & (x & [Hx Hi] & H)%IH). simpl in *.
      unfold capture in Heq. simpl in Heq. injection Heq as -> -> ->.
      exists x. repeat split; auto. exists (captures m). split; auto.
      rewrite Hi, Hx. replace (i + List.length x - i)%nat with (List.length x) by lia.
      by rewrite take_app_length.
    + intros (x & [-> ->] & cm & H & ->).
      exists (MState (i + List.length x) s' cm). split.
      * unfold capture. simpl.
        replace (i + List.length x - i)%nat with (List.length x) by lia.
        by rewrite take_app_length.
      * apply IH. exists x. repeat split; auto.
  - split.
    + destruct (Nat.eqb_spec i 0); [|by intros ?%elem_of_nil].
      intros Heq%list_elem_of_singleton. injection Heq as -> -> ->.
      exists []. simpl. repeat split; auto.
    + intros (x & [Hx Hi] & -> & -> & ->). simpl in *. subst.
      apply list_elem_of_singleton. done.
  - split.
    + destruct s; [|by intros ?%elem_of_nil].
      intros Heq%list_elem_of_singleton. injection Heq as -> -> ->.
      exists []. simpl. repeat split; auto.
    + intros (x & [Hx Hi] & -> & -> & ->). simpl in *. subst.
      apply list_elem_of_singleton. f_equal. lia.
Qed.

(** A pattern that begins with [^] can only match at index 0. *)
Lemma exec_anchored body s :
  exec (Bol ;;; body) s = head (run body (MState 0 s ∅)).
Proof.
  assert (Hlater : forall fuel i, exec_from (Bol ;;; body) s (S i) fuel = None).
  { induction fuel as [|fuel IH]; intros i; simpl; unfold match_at; simpl; auto. }
  assert (Hfirst : match_at (Bol ;;; body) 0 s = head (run body (MState 0 s ∅))).
  { unfold match_at. simpl. by rewrite app_nil_r. }
  unfold exec. destruct (List.length s) as [|fuel]; cbn [exec_from];
    rewrite Hfirst, ?Hlater; by destruct (head _).
Qed.

Lemma head_elem_of {A} (l : list A) (x : A) : head l = Some x -> x ∈ l.
Proof. destruct l; simpl; [done|]. intros [= ->]. by left. Qed.

Lemma elem_of_head_some {A} (l : list A) (x : A) : x ∈ l -> is_Some (head l).
Proof. destruct l; [by intros ?%elem_of_nil|]. simpl. eauto. Qed.

End MatcherFacts.

(** ** The pattern of the specifier parser *)

Section PatternFacts.

Lemma den_chr a i x rest c c' :
  den (chr a) i x rest c c' <-> x = [N_of_ascii a] /\ c' = c.
Proof.
  unfold chr. simpl. split.
  - intros [(b & -> & ->%N.eqb_eq) ->]. done.
  - intros [-> ->]. split; [|done]. eexists. split; [done|]. apply N.eqb_refl.
Qed.

Lemma all_in_not_slash x :
  all_in not_slash x <-> Forall (fun c => c <> slash) x.
Proof.
  apply Forall_iff. intros c. unfold not_slash, slash.
  rewrite negb_true_iff. apply N.eqb_neq.
Qed.

Lemma all_in_not_slash_at x :
  all_in not_slash_at x <-> Forall (fun c => c <> slash /\ c <> at_sign) x.
Proof.
  apply Forall_iff. intros c. unfold not_slash_at, slash, at_sign.
  rewrite negb_true_iff, orb_false_iff, !N.eqb_neq. done.
Qed.

Lemma all_in_dot x :
  all_in dot x <-> Forall (fun c => ~ line_terminator c) x.
Proof.
  apply Forall_iff. intros c. unfold dot, line_terminator.
  rewrite negb_true_iff, !orb_false_iff, !N.eqb_neq. tauto.
Qed.

(** The parts of the grammar in terms of the classes of the pattern. *)
Lemma is_scope_alt sc :
  is_scope sc <-> exists x, x <> [] /\ all_in not_slash x /\ sc = 64 :: x ++ [47].
Proof. unfold is_scope. by setoid_rewrite all_in_not_slash. Qed.

Lemma is_name_alt nm : is_name nm <-> nm <> [] /\ all_in not_slash_at nm.
Proof. unfold is_name. by rewrite all_in_not_slash_at. Qed.

Lemma is_version_alt v :
  is_version v <-> exists x, x <> [] /\ all_in not_slash x /\ v = 64 :: x.
Proof. unfold is_version. by setoid_rewrite all_in_not_slash. Qed.

Lemma is_subpath_alt sp :
  is_subpath sp <-> exists x, x <> [] /\ all_in dot x /\ sp = 47 :: x.
Proof. unfold is_subpath. by setoid_rewrite all_in_dot. Qed.

Lemma den_scope i x rest c c' :
  den (Group "scope" (chr "@" ;;; Many1 not_slash ;;; chr "/")) i x rest c c' <->
  is_scope x /\ c' = <["scope" := x]> c.
Proof.
  cbn [den]. setoid_rewrite den_chr. rewrite is_scope_alt. split.
  - intros (cm & (x1 & x2 & c1 & -> & [-> ->] & x3 & x4 & c2 & -> &
      (Hne & Hall & ->) & -> & ->) & ->).
    split; [|done]. exists x3. done.
  - intros [(y & Hne & Hall & ->) ->]. exists c. split; [|done].
    exists [64], (y ++ [47]), c. split; [done|split; [done|]].
    exists y, [47], c. done.
Qed.

Lemma den_name i x rest c c' :
  den (Group "name" (Many1 not_slash_at)) i x rest c c' <->
  is_name x /\ c' = <["name" := x]> c.
Proof.
  cbn [den]. rewrite is_name_alt. split.
  - intros (cm & (Hne & Hall & ->) & ->). done.
  - intros [[Hne Hall] ->]. exists c. done.
Qed.

Lemma den_version i x rest c c' :
  den (Group "version" (chr "@" ;;; Many1 not_slash)) i x rest c c' <->
  is_version x /\ c' = <["version" := x]> c.
Proof.
  cbn [den]. setoid_rewrite den_chr. rewrite is_version_alt. split.
  - intros (cm & (x1 & x2 & c1 & -> & [-> ->] & Hne & Hall & ->) & ->).
    split; [|done]. exists x2. done.
  - intros [(y & Hne & Hall & ->) ->]. exists c. split; [|done].
    exists [64], y, c. done.
Qed.

Lemma den_subpath i x rest c c' :
  den (Group "subpath" (chr "/" ;;; Many1 dot)) i x rest c c' <->
  is_subpath x /\ c' = <["subpath" := x]> c.
Proof.
  cbn [den]. setoid_rewrite den_chr. rewrite is_subpath_alt. split.
  - intros (cm & (x1 & x2 & c1 & -> & [-> ->] & Hne & Hall & ->) & ->).
    split; [|done]. exists x2. done.
  - intros [(y & Hne & Hall & ->) ->]. exists c. split; [|done].
    exists [47], y, c. done.
Qed.

Lemma den_opt_group (P : jsstring -> Prop) n r i x rest c c' :
  (forall y, P y -> y <> []) ->
  (den (Group n r) i x rest c c' <-> P x /\ c' = <[n := x]> c) ->
  den (Opt (Group n r)) i x rest c c' <-> optional P x /\ c' = opt_ins n x c.
Proof.
  intros Hne Hg. change (den (Opt (Group n r)) i x rest c c') with
    (den (Group n r) i x rest c c' \/ (x = [] /\ c' = c)).
  rewrite Hg. unfold optional, opt_ins. split.
  - intros [[HP ->] | [-> ->]]; [|by split; [left|]].
    split; [by right|]. destruct x; [by apply Hne in HP|done].
  - intros [[-> | HP] ->]; [by right|]. left. split; [done|].
    destruct x; [by apply Hne in HP|done].
Qed.

Lemma den_seq r1 r2 i x rest c c' :
  den (r1 ;;; r2) i x rest c c' <->
  exists x1 x2 cm, x = x1 ++ x2 /\
    den r1 i x1 (x2 ++ rest) c cm /\
    den r2 (i + List.length x1) x2 rest cm c'.
Proof. reflexivity. Qed.

Lemma den_group n r i x rest c c' :
  den (Group n r) i x rest c c' <->
  exists cm, den r i x rest c cm /\ c' = <[n := x]> cm.
Proof. reflexivity. Qed.

Lemma den_eol i x rest c c' :
  den Eol i x rest c c' <-> x = [] /\ rest = [] /\ c' = c.
Proof. reflexivity. Qed.

Lemma is_scope_ne y : is_scope y -> y <> [].
Proof. by intros (x & _ & _ & ->)%is_scope_alt. Qed.

Lemma is_version_ne y : is_version y -> y <> [].
Proof. by intros (x & _ & _ & ->)%is_version_alt. Qed.

Lemma is_subpath_ne y : is_subpath y -> y <> [].
Proof. by intros (x & _ & _ & ->)%is_subpath_alt. Qed.

Lemma packageSpecPattern_eq : packageSpecPattern = Bol ;;; packageSpecBody.
Proof. reflexivity. Qed.

Lemma den_install i x rest c c' :
  den (Group "install"
    (Opt (Group "scope" (chr "@" ;;; Many1 not_slash ;;; chr "/")) ;;;
     Group "name" (Many1 not_slash_at) ;;;
     Opt (Group "version" (chr "@" ;;; Many1 not_slash)))) i x rest c c' <->
  exists sc nm v, optional is_scope sc /\ is_name nm /\ optional is_version v /\
    x = sc ++ nm ++ v /\
    c' = <["install" := x]>
           (opt_ins "version" v (<["name" := nm]> (opt_ins "scope" sc c))).
Proof.
  split.
  - intros (cm & H & ->)%den_group.
    apply den_seq in H as (sc & x2 & c1 & -> & Hsc & H).
    apply den_seq in H as (nm & v & c2 & -> & Hnm & Hv).
    apply (den_opt_group is_scope) in Hsc as [Hsc ->];
      [|apply is_scope_ne|apply den_scope].
    apply den_name in Hnm as [Hnm ->].
    apply (den_opt_group is_version) in Hv as [Hv ->];
      [|apply is_version_ne|apply den_version].
    exists sc, nm, v. done.
  - intros (sc & nm & v & Hsc & Hnm & Hv & -> & ->).
    apply den_group. eexists. split; [|reflexivity].
    apply den_seq. exists sc, (nm ++ v), (opt_ins "scope" sc c).
    split; [done|]. split.
    { apply (den_opt_group is_scope); [apply is_scope_ne|apply den_scope|done]. }
    apply den_seq. exists nm, v, (<["name" := nm]> (opt_ins "scope" sc c)).
    split; [done|]. split.
    { by apply den_name. }
    apply (den_opt_group is_version); [apply is_version_ne|apply den_version|done].
Qed.

Lemma den_body x rest c' :
  den packageSpecBody 0 x rest ∅ c' <->
  rest = [] /\
  exists sc nm v sp, specifier_parts sc nm v sp /\ x = sc ++ nm ++ v ++ sp /\
    c' = spec_captures sc nm v sp.
Proof.
  unfold packageSpecBody, specifier_parts, spec_captures. split.
  - intros (x1 & x2 & cm & -> & Hi & H)%den_seq.
    apply den_seq in H as (sp & x4 & cm' & -> & Hsp & -> & -> & ->).
    apply den_install in Hi as (sc & nm & v & Hsc & Hnm & Hv & -> & ->).
    apply (den_opt_group is_subpath) in Hsp as [Hsp ->];
      [|apply is_subpath_ne|apply den_subpath].
    split; [done|].
    exists sc, nm, v, sp. rewrite app_nil_r, <- !app_assoc. done.
  - intros (-> & sc & nm & v & sp & (Hsc & Hnm & Hv & Hsp) & -> & ->).
    apply den_seq. exists (sc ++ nm ++ v), sp. eexists.
    split; [by rewrite <- !app_assoc|].
    split. { apply den_install. exists sc, nm, v. done. }
    apply den_seq. exists sp, []. eexists. split; [by rewrite app_nil_r|].
    split; [|by apply den_eol].
    apply (den_opt_group is_subpath); [apply is_subpath_ne|apply den_subpath|done].
Qed.

End PatternFacts.

(** ** The grammar is unambiguous *)

Section Unambiguous.

Lemma span_unique p x x' r r' :
  all_in p x -> all_in p x' -> stops p r -> stops p r' ->
  x ++ r = x' ++ r' -> x = x' /\ r = r'.
Proof.
  revert x'. induction x as [|a x IH]; intros [|b x'] Hx Hx' Hr Hr' Heq;
    simpl in *; subst; auto.
  - apply Forall_cons_1 in Hx' as [Hb _]. simpl in Hr. congruence.
  - apply Forall_cons_1 in Hx as [Ha _]. simpl in Hr'. congruence.
  - injection Heq as -> Heq.
    apply Forall_cons_1 in Hx as [_ Hx]. apply Forall_cons_1 in Hx' as [_ Hx'].
    destruct (IH x' Hx Hx' Hr Hr' Heq) as [-> ->]. done.
Qed.

Lemma name_head nm : is_name nm -> exists a t, nm = a :: t /\ a <> 64 /\ a <> 47.
Proof.
  intros [Hne Hall]%is_name_alt. destruct nm as [|a t]; [done|]. exists a, t.
  apply Forall_cons_1 in Hall as [Ha _]. unfold not_slash_at in Ha.
  apply negb_true_iff, orb_false_iff in Ha as [H1 H2].
  apply N.eqb_neq in H1, H2. done.
Qed.

Lemma stops_after_name v sp :
  optional is_version v -> optional is_subpath sp -> stops not_slash_at (v ++ sp).
Proof.
  intros [-> | (x & _ & _ & ->)%is_version_alt]
         [-> | (y & _ & _ & ->)%is_subpath_alt]; simpl; done.
Qed.

Lemma stops_after_version sp : optional is_subpath sp -> stops not_slash sp.
Proof. intros [-> | (y & _ & _ & ->)%is_subpath_alt]; simpl; done. Qed.

Lemma subpath_head sp : optional is_subpath sp -> sp = [] \/ exists t, sp = 47 :: t.
Proof. intros [-> | (y & _ & _ & ->)%is_subpath_alt]; eauto. Qed.

Theorem specifier_parts_unique sc nm v sp sc' nm' v' sp' :
  specifier_parts sc nm v sp -> specifier_parts sc' nm' v' sp' ->
  sc ++ nm ++ v ++ sp = sc' ++ nm' ++ v' ++ sp' ->
  sc = sc' /\ nm = nm' /\ v = v' /\ sp = sp'.
Proof.
  intros (Hsc & Hnm & Hv & Hsp) (Hsc' & Hnm' & Hv' & Hsp') Heq.
  assert (Hscope : sc = sc' /\ nm ++ v ++ sp = nm' ++ v' ++ sp').
  { destruct (name_head nm Hnm) as (a & t & -> & Ha & _).
    destruct (name_head nm' Hnm') as (a' & t' & -> & Ha' & _).
    destruct Hsc as [-> | (x & _ & Hx & ->)%is_scope_alt],
             Hsc' as [-> | (x' & _ & Hx' & ->)%is_scope_alt];
      simpl in Heq.
    - done.
    - injection Heq as -> _. done.
    - injection Heq as <- _. done.
    - injection Heq as Heq. rewrite <- !app_assoc in Heq.
      destruct (span_unique not_slash x x' ([47] ++ a :: t ++ v ++ sp)
                  ([47] ++ a' :: t' ++ v' ++ sp') Hx Hx' eq_refl eq_refl Heq)
        as [-> Heq'].
      simpl in Heq'. split; [done|]. simpl. congruence. }
  destruct Hscope as [-> Heq']. split; [done|].
  apply is_name_alt in Hnm, Hnm'.
  destruct (span_unique not_slash_at nm nm' _ _ (proj2 Hnm) (proj2 Hnm')
              (stops_after_name _ _ Hv Hsp) (stops_after_name _ _ Hv' Hsp') Heq')
    as [-> Heq''].
  split; [done|].
  pose proof (stops_after_version _ Hsp) as Hs.
  pose proof (stops_after_version _ Hsp') as Hs'.
  destruct Hv as [-> | (x & _ & Hx & ->)%is_version_alt],
           Hv' as [-> | (x' & _ & Hx' & ->)%is_version_alt];
    simpl in Heq''.
  - done.
  - subst sp. simpl in Hs. done.
  - subst sp'. simpl in Hs'. done.
  - injection Heq'' as Heq''.
    destruct (span_unique not_slash x x' _ _ Hx Hx' Hs Hs' Heq'') as [-> ->].
    done.
Qed.

End Unambiguous.

(** ** What [parsePackageSpec] returns *)

Section ParserFacts.

Lemma exec_spec_sound s st :
  exec packageSpecPattern s = Some st ->
  exists sc nm v sp, specifier_parts sc nm v sp /\ s = sc ++ nm ++ v ++ sp /\
    captures st = spec_captures sc nm v sp.
Proof.
  rewrite packageSpecPattern_eq, exec_anchored.
  intros (x & [Hx _] & H)%head_elem_of%run_den. simpl in *.
  apply den_body in H as (Hrest & sc & nm & v & sp & Hparts & -> & Hc).
  rewrite Hrest, app_nil_r in Hx. eauto 10.
Qed.

Lemma exec_spec_complete s :
  matches_grammar s -> is_Some (exec packageSpecPattern s).
Proof.
  intros (sc & nm & v & sp & Hparts & ->).
  rewrite packageSpecPattern_eq, exec_anchored.
  apply (elem_of_head_some _ (MState (List.length (sc ++ nm ++ v ++ sp)) []
                                (spec_captures sc nm v sp))).
  apply run_den. exists (sc ++ nm ++ v ++ sp). simpl.
  split; [by unfold spans; simpl; rewrite app_nil_r|].
  apply den_body. eauto 10.
Qed.

Lemma spec_captures_fields i a sc nm v sp :
  let m := Some (MState i a (spec_captures sc nm v sp)) in
  group_or_empty m "install" = sc ++ nm ++ v /\
  group_or_empty m "scope" = sc /\
  group_or_empty m "name" = nm /\
  group_or_empty m "version" = v /\
  group_or_empty m "subpath" = sp.
Proof.
  unfold spec_captures, opt_ins, group_or_empty. simpl.
  destruct sc, v, sp; by simplify_map_eq.
Qed.

(** On a specifier of the grammar the fields are its parts. *)
Theorem parsePackageSpec_parts sc nm v sp :
  specifier_parts sc nm v sp ->
  parsePackageSpec (sc ++ nm ++ v ++ sp) = mkPackage (sc ++ nm ++ v) sc nm v sp.
Proof.
  intros Hparts.
  destruct (exec_spec_complete (sc ++ nm ++ v ++ sp)) as [st Hst];
    [by exists sc, nm, v, sp|].
  destruct (exec_spec_sound _ _ Hst) as (sc' & nm' & v' & sp' & Hparts' & Heq & Hc).
  destruct (specifier_parts_unique _ _ _ _ _ _ _ _ Hparts Hparts' Heq)
    as (<- & <- & <- & <-).
  unfold parsePackageSpec. rewrite Hst. destruct st as [i a c]. simpl in Hc.
  subst c. destruct (spec_captures_fields i a sc nm v sp) as (-> & -> & -> & -> & ->).
  done.
Qed.

(** Off the grammar every field is empty. *)
Theorem parsePackageSpec_no_match s :
  ~ matches_grammar s -> parsePackageSpec s = empty_package.
Proof.
  intros Hno. unfold parsePackageSpec.
  destruct (exec packageSpecPattern s) as [st|] eqn:Hst; [|done].
  destruct Hno. apply exec_spec_sound in Hst as (sc & nm & v & sp & ? & ? & _).
  by exists sc, nm, v, sp.
Qed.

(** The pattern decides the grammar. *)
Theorem test_spec_iff s :
  test packageSpecPattern s = true <-> matches_grammar s.
Proof.
  unfold test. split.
  - destruct (exec packageSpecPattern s) as [st|] eqn:Hst; [|done].
    intros _. apply exec_spec_sound in Hst as (sc & nm & v & sp & ? & ? & _).
    by exists sc, nm, v, sp.
  - intros [st ->]%exec_spec_complete. done.
Qed.

Lemma not_matches_nil : ~ matches_grammar [].
Proof. by intros ?%test_spec_iff. Qed.

Lemma not_matches_slash t : ~ matches_grammar (47 :: t).
Proof.
  intros (sc & nm & v & sp & (Hsc & Hnm & _) & Heq).
  destruct (name_head nm Hnm) as (a & t' & -> & _ & Ha).
  destruct Hsc as [-> | (x & _ & _ & ->)%is_scope_alt]; simpl in Heq; congruence.
Qed.

End ParserFacts.

(** ** Facts about [split] and [includes] *)

Section SplitFacts.

Lemma split_not_nil c s : split c s <> [].
Proof. destruct s as [|x t]; simpl; [done|]. by destruct (N.eqb x c), (split c t). Qed.

Lemma split_head c s : at_index (split c s) 0 = before_first c s.
Proof.
  induction s as [|x t IH]; simpl; [done|].
  destruct (N.eqb x c); [done|].
  pose proof (split_not_nil c t). destruct (split c t); [done|].
  unfold at_index in *. simpl in *. by rewrite IH.
Qed.

Lemma split_second c s :
  includes c s = true ->
  at_index (split c s) 1 = before_first c (after_first c s).
Proof.
  unfold includes. induction s as [|x t IH]; simpl; [done|].
  rewrite (N.eqb_sym c x). destruct (N.eqb x c) eqn:E; simpl.
  - intros _. apply (split_head c t).
  - intros Hin. specialize (IH Hin).
    pose proof (split_not_nil c t). destruct (split c t); [done|]. done.
Qed.

Lemma split_length_includes c s :
  includes c s = true -> (2 <= List.length (split c s))%nat.
Proof.
  unfold includes. induction s as [|x t IH]; simpl; [done|].
  rewrite (N.eqb_sym c x). destruct (N.eqb x c) eqn:E; simpl.
  - intros _. pose proof (split_not_nil c t). destruct (split c t); [done|].
    simpl. lia.
  - intros Hin. specialize (IH Hin). destruct (split c t); simpl in *; lia.
Qed.

Lemma before_first_no_sep c s : includes c s = false -> before_first c s = s.
Proof.
  unfold includes. induction s as [|x t IH]; simpl; [done|].
  rewrite (N.eqb_sym c x). destruct (N.eqb x c); simpl; [done|].
  intros H. by rewrite IH.
Qed.

End SplitFacts.

(** ** Facts about the alias check *)

Section IdentifierFacts.

Lemma in_range_spec lo hi c :
  in_range lo hi c = true <-> N_of_ascii lo <= c <= N_of_ascii hi.
Proof. unfold in_range. rewrite andb_true_iff, !N.leb_le. done. Qed.

Lemma id_start_spec c : id_start c = true <-> identifier_start c.
Proof.
  unfold id_start, identifier_start, letter, cu.
  rewrite !orb_true_iff, !in_range_spec, !N.eqb_eq. simpl. lia.
Qed.

Lemma id_part_spec c : id_part c = true <-> identifier_part c.
Proof.
  unfold id_part, identifier_part, identifier_start, letter, digit, cu.
  rewrite !orb_true_iff, !in_range_spec, !N.eqb_eq. simpl. lia.
Qed.

Lemma test_identifier_iff s :
  test identifierPattern s = true <-> is_identifier s.
Proof.
  unfold test, identifierPattern. rewrite exec_anchored. split.
  - destruct (head _) as [st|] eqn:Hst; [|done]. intros _.
    apply head_elem_of, run_den in Hst as (x & [Hx _] & H). simpl in Hx.
    apply den_seq in H as (x1 & x2 & c1 & -> & [(a & -> & Ha) _] & H).
    apply den_seq in H as (t & x3 & c2 & -> & [Ht _] & -> & Hrest & _).
    rewrite Hrest, !app_nil_r in Hx. subst s. exists a, t.
    split; [done|]. split; [by apply id_start_spec|].
    eapply Forall_impl; [exact Ht|]. intros c Hc. by apply id_part_spec.
  - intros (a & t & -> & Ha & Ht).
    assert (Hin : MState (S (List.length t)) [] ∅ ∈
              run (Class id_start ;;; Many0 id_part ;;; Eol) (MState 0 (a :: t) ∅)).
    { apply run_den. exists (a :: t). split; [by split; simpl; rewrite ?app_nil_r|].
      simpl. exists [a], t, ∅. split; [done|]. split.
      { split; [|done]. exists a. split; [done|]. by apply id_start_spec. }
      exists t, [], ∅. split; [by rewrite app_nil_r|]. split; [|done].
      split; [|done]. eapply Forall_impl; [exact Ht|].
      intros c Hc. by apply id_part_spec. }
    by destruct (elem_of_head_some _ _ Hin) as [st ->].
Qed.

Theorem isValidJsVariableName_iff s :
  isValidJsVariableName s = true <-> is_identifier s /\ s ∉ JS_RESERVED_WORDS.
Proof.
  unfold isValidJsVariableName. case_bool_decide as Hres.
  - split; [done|]. by intros [_ ?].
  - rewrite test_identifier_iff. tauto.
Qed.

Lemma identifier_not_digit_first d t :
  digit d -> ~ is_identifier (d :: t).
Proof.
  unfold digit, is_identifier, identifier_start, letter.
  intros Hd (c & t' & [= <- <-] & Hc & _). lia.
Qed.

(** The validator's grammar is the ASCII part of the language's. *)
Lemma is_identifier_ascii s :
  is_identifier s <-> es_identifier_name s /\ Forall (fun c => c < 128) s.
Proof.
  unfold is_identifier, es_identifier_name. split.
  - intros (c & t & -> & Hc & Ht). split.
    + exists c, t. split; [done|]. split.
      * unfold identifier_start, es_identifier_start in *. tauto.
      * eapply Forall_impl; [exact Ht|]. intros x Hx.
        unfold identifier_part, identifier_start, es_identifier_part,
          es_identifier_start in *. tauto.
    + constructor.
      * unfold identifier_start, letter in Hc. lia.
      * eapply Forall_impl; [exact Ht|]. intros x Hx.
        unfold identifier_part, identifier_start, letter, digit in Hx. lia.
  - intros [(c & t & -> & Hc & Ht) Hascii].
    apply Forall_cons in Hascii as [Hc128 Ht128].
    exists c, t. split; [done|]. split.
    + unfold identifier_start, es_identifier_start, latin1_letter, letter in *. lia.
    + rewrite Forall_forall in Ht, Ht128. apply Forall_forall. intros x Hx.
      specialize (Ht x Hx). specialize (Ht128 x Hx). simpl in Ht128.
      unfold identifier_part, identifier_start, es_identifier_part,
        es_identifier_start, latin1_letter, letter, digit in *. lia.
Qed.

(** The validator's table against the reserved words of the language:
    it has [let] in addition and lacks [await]. *)
Lemma reserved_words_compared s :
  s ∈ JS_RESERVED_WORDS <->
  s = js "let" \/ (s ∈ ES_RESERVED_WORDS /\ s <> js "await").
Proof.
  assert (JS_RESERVED_WORDS =
          take 22 (tail ES_RESERVED_WORDS) ++ js "let" :: drop 22 (tail ES_RESERVED_WORDS))
    as -> by (by vm_compute).
  assert (ES_RESERVED_WORDS =
          js "await" :: take 22 (tail ES_RESERVED_WORDS) ++ drop 22 (tail ES_RESERVED_WORDS))
    as Hes by (by vm_compute).
  rewrite Hes at 3.
  assert (js "await" ∉ take 22 (tail ES_RESERVED_WORDS) ++ drop 22 (tail ES_RESERVED_WORDS))
    as Hnot.
  { apply (bool_decide_unpack _). by vm_compute. }
  rewrite elem_of_app, !elem_of_cons, elem_of_app.
  split.
  - intros [H|[->|H]]; [right|by left|right]; (split; [tauto|]);
      intros ->; apply Hnot, elem_of_app; tauto.
  - intros [->|[[->|[H|H]] Hne]]; tauto.
Qed.

End IdentifierFacts.

(** ** Facts about the validator *)

Section ValidatorFacts.

Variable validateNpmPackageName : jsstring -> option (list jsstring).

Lemma forEach_returns {A} (f : A -> outcome unit) xs :
  forEach f xs = Returns tt <-> Forall (fun x => f x = Returns tt) xs.
Proof.
  induction xs as [|x xs IH]; simpl; [by split; [constructor|]|].
  rewrite Forall_cons. destruct (f x) as [[]|e].
  - rewrite IH. tauto.
  - split; [done|]. by intros [? _].
Qed.

Lemma size_list_to_set_le (l : list jsstring) :
  (size (list_to_set l : gset jsstring) <= List.length l)%nat.
Proof.
  induction l as [|a l IH]; [done|].
  rewrite list_to_set_cons.
  destruct (decide (a ∈ l)) as [Hin|Hnin].
  - assert ({[a]} ∪ list_to_set l = (list_to_set l : gset jsstring)) as ->
      by set_solver.
    simpl. lia.
  - rewrite size_union by set_solver. rewrite size_singleton. simpl. lia.
Qed.

(** [allAliases.length === new Set(allAliases).size] exactly when no
    alias occurs twice. *)
Lemma length_eq_size_iff (l : list jsstring) :
  List.length l = size (list_to_set l : gset jsstring) <-> NoDup l.
Proof.
  split; [|intros H; symmetry; by apply size_list_to_set].
  induction l as [|a l IH]; [constructor|].
  rewrite list_to_set_cons. simpl.
  intros Hlen. pose proof (size_list_to_set_le l) as Hle.
  destruct (decide (a ∈ l)) as [Hin|Hnin].
  - assert ({[a]} ∪ list_to_set l = (list_to_set l : gset jsstring)) as Heq
      by set_solver.
    rewrite Heq in Hlen. lia.
  - rewrite size_union in Hlen by set_solver. rewrite size_singleton in Hlen.
    constructor; [done|]. apply IH. lia.
Qed.

Theorem validatePackageNames_returns newPackages alreadyInstalled :
  validatePackageNames validateNpmPackageName newPackages alreadyInstalled = Returns tt <->
  Forall (record_ok validateNpmPackageName) newPackages /\ NoDup (all_aliases newPackages alreadyInstalled).
Proof.
  unfold validatePackageNames, all_aliases.
  set (f := fun pkg : PackageToInstall => _).
  assert (Hf : forall pkg, f pkg = Returns tt <-> record_ok validateNpmPackageName pkg).
  { intros pkg. unfold f, record_ok.
    destruct (isValidJsVariableName (alias pkg)); simpl; [|naive_solver].
    destruct (has_errors _); naive_solver. }
  rewrite <- length_eq_size_iff.
  destruct (forEach f newPackages) as [[]|e] eqn:Hloop.
  - apply forEach_returns in Hloop.
    assert (Forall (record_ok validateNpmPackageName) newPackages) as Hall.
    { eapply Forall_impl; [exact Hloop|]. intros pkg. apply Hf. }
    destruct (Nat.eqb_spec
      (List.length (map alias (newPackages ++ map toInstall alreadyInstalled)))
      (size (list_to_set (map alias (newPackages ++ map toInstall alreadyInstalled))
               : gset jsstring))); simpl; naive_solver.
  - split; [done|]. intros [Hall _].
    assert (forEach f newPackages = Returns tt) as Hr.
    { apply forEach_returns. eapply Forall_impl; [exact Hall|].
      intros pkg. apply Hf. }
    congruence.
Qed.

(** Records that pass the loop but share an alias are refused with the
    uniqueness error. *)
Lemma validatePackageNames_not_unique newPackages alreadyInstalled :
  Forall (record_ok validateNpmPackageName) newPackages ->
  ~ NoDup (all_aliases newPackages alreadyInstalled) ->
  validatePackageNames validateNpmPackageName newPackages alreadyInstalled =
  Throws NamesNotUnique.
Proof.
  intros Hall Hdup. unfold validatePackageNames.
  set (f := fun pkg : PackageToInstall => _).
  assert (forEach f newPackages = Returns tt) as ->.
  { apply forEach_returns. eapply Forall_impl; [exact Hall|].
    intros pkg [Hvalid Hname]. unfold f. by rewrite Hvalid, Hname. }
  rewrite <- length_eq_size_iff in Hdup. unfold all_aliases in Hdup.
  by destruct (Nat.eqb_spec
    (List.length (map alias (newPackages ++ map toInstall alreadyInstalled)))
    (size (list_to_set (map alias (newPackages ++ map toInstall alreadyInstalled))
             : gset jsstring))).
Qed.

Lemma validatePackageNames_cases newPackages alreadyInstalled :
  validatePackageNames validateNpmPackageName newPackages alreadyInstalled = Returns tt \/
  exists e, validatePackageNames validateNpmPackageName newPackages alreadyInstalled = Throws e.
Proof. destruct (validatePackageNames _ _ _) as [[]|e]; eauto. Qed.

Lemma validatePackageNames_duplicate newPackages alreadyInstalled :
  ~ NoDup (all_aliases newPackages alreadyInstalled) ->
  exists e, validatePackageNames validateNpmPackageName newPackages alreadyInstalled = Throws e.
Proof.
  intros Hdup. destruct (validatePackageNames_cases newPackages alreadyInstalled)
    as [Hok|?]; [|done].
  apply validatePackageNames_returns in Hok as [_ ?]. done.
Qed.

End ValidatorFacts.

(** ** Facts about the session handlers *)

Section SessionFacts.

Variable host : Host.

Lemma installPackage_run pkg path st :
  exists (u cmd : jsstring) (ok : bool),
    installPackage host pkg path st =
    (if ok then Returns (mkInstalledPackage pkg u
                           (join host [path; js "lib"; js "node_modules"; u]))
     else Throws (InstallFailed (install pkg)),
     mkState (trace st ++ [EvRandomUUID u; EvExec cmd ok])
       (installedPackages st) (context st)).
Proof.
  unfold installPackage, bind, get_trace, emit. simpl.
  rewrite <- app_assoc. simpl.
  destruct (execAsync host _ _); do 2 eexists;
    [exists true | exists false]; reflexivity.
Qed.

Lemma installPackages_run pkgs path st :
  exists r evs,
    installPackages host pkgs path st =
    (r, mkState (trace st ++ evs) (installedPackages st) (context st)) /\
    (forall l, r = Returns l -> map toInstall l = pkgs /\ Forall exec_succeeded evs) /\
    (pkgs = [] -> evs = []).
Proof.
  unfold installPackages. revert st.
  induction pkgs as [|pkg pkgs IH]; intros st; simpl.
  - exists (Returns []), []. destruct st. simpl. rewrite app_nil_r.
    split; [done|]. split; [by intros l [= <-]|done].
  - destruct (installPackage_run pkg path st) as (u & cmd & ok & ->).
    destruct (IH (mkState (trace st ++ [EvRandomUUID u; EvExec cmd ok])
                    (installedPackages st) (context st)))
      as (rs & evs & -> & Hmap & _). simpl.
    eexists _, ([EvRandomUUID u; EvExec cmd ok] ++ evs).
    rewrite <- app_assoc. split; [reflexivity|]. split; [|done].
    intros l. destruct ok; [|done]. destruct rs as [l'|e]; [|done].
    intros [= <-]. destruct (Hmap l' eq_refl) as [Hl' Hevs]. simpl.
    rewrite Hl'. split; [done|]. by repeat constructor.
Qed.

(** [installPackages] throws only when a run of the package manager
    failed. *)
Lemma installPackages_throws pkgs path st e st' :
  installPackages host pkgs path st = (Throws e, st') ->
  exists evs, trace st' = trace st ++ evs /\
    Exists (fun ev => exists cmd, ev = EvExec cmd false) evs.
Proof.
  unfold installPackages. revert st.
  induction pkgs as [|pkg pkgs IH]; intros st; simpl; [done|].
  destruct (installPackage_run pkg path st) as (u & cmd & ok & ->).
  set (st1 := mkState _ _ _).
  destruct (promise_all _ st1) as [rs st2] eqn:Hrest.
  destruct ok.
  - destruct rs as [l|e']; [done|]. intros [= <- <-].
    destruct (IH st1 Hrest) as (evs & -> & Hex). simpl.
    exists ([EvRandomUUID u; EvExec cmd true] ++ evs).
    rewrite <- app_assoc. split; [done|]. apply Exists_app. by right.
  - intros [= <- <-].
    destruct (installPackages_run pkgs path st1) as (r & evs & Hrun & _).
    unfold installPackages in Hrun. rewrite Hrest in Hrun. injection Hrun as _ ->.
    simpl. exists ([EvRandomUUID u; EvExec cmd false] ++ evs).
    rewrite <- app_assoc. split; [done|]. apply Exists_app. left.
    apply Exists_cons. right. apply Exists_cons. left. by exists cmd.
Qed.

Lemma importPackageIntoContext_installed pkg st :
  installedPackages (importPackageIntoContext host pkg st).2 = installedPackages st.
Proof.
  unfold importPackageIntoContext, bind, get_trace, emit. simpl.
  by destruct (match importMetaResolve host _ _ _ with Some _ => _ | None => _ end).
Qed.

Lemma importPackagesIntoContext_installed pkgs st :
  installedPackages (importPackagesIntoContext host pkgs st).2 = installedPackages st.
Proof.
  revert st. induction pkgs as [|pkg pkgs IH]; intros st; simpl; [done|].
  unfold bind. pose proof (importPackageIntoContext_installed pkg st) as H.
  destruct (importPackageIntoContext host pkg st) as [[[]|e] st1]; simpl in *;
    [by rewrite IH|done].
Qed.

Lemma importAdditionalPackagesViaCommand_run args path st :
  exists st', importAdditionalPackagesViaCommand host args path st = (Returns tt, st') /\
    import_result host args path st st'.
Proof.
  unfold importAdditionalPackagesViaCommand, try_catch, bind, lift, get_installed.
  cbn beta iota.
  destruct (validatePackageNames (validateNpmPackageName host) _ (installedPackages st))
    as [[]|e] eqn:Hval.
  - destruct (installPackages_run
                (getPackagesToInstallFromArgv (stringArgv host args)) path st)
      as (r & evs & Hrun & Hmap & _).
    rewrite Hrun. destruct r as [newly|e]; cbn.
    + pose proof (importPackagesIntoContext_installed newly
        (mkState (trace st ++ evs) (installedPackages st ++ newly) (context st))) as Hkeep.
      destruct (Hmap newly eq_refl) as [Hnew _].
      destruct (importPackagesIntoContext host newly _) as [[[]|e] st2];
        simpl in Hkeep; eexists; (split; [reflexivity|]);
        eapply import_installed; eauto.
    + eexists. split; [reflexivity|]. eapply import_install_failed; eauto.
  - exists st. split; [reflexivity|]. eapply import_rejected; eauto.
Qed.

Lemma createInstallationDirectory_run st :
  exists r created,
    createInstallationDirectory host st =
    (r, mkState (trace st ++ [EvMkdtemp (join host [tmpdir host; js "repl-with-"]) created])
          (installedPackages st) (context st)) /\
    (forall dir, r = Returns dir -> created = Some dir).
Proof.
  unfold createInstallationDirectory, bind, get_trace, emit. simpl.
  destruct (mkdtemp host (trace st) _) as [dir|]; eexists _, _;
    (split; [reflexivity|]); [by intros ? [= <-]|done].
Qed.

(** When [main] gets as far as a running session, the batch of the
    command line passed validation and is the installed list. *)
Lemma main_returns process_argv st path st1 :
  main host process_argv st = (Returns path, st1) ->
  validatePackageNames (validateNpmPackageName host)
    (getPackagesToInstallFromArgv (drop 2 process_argv)) [] = Returns tt /\
  map toInstall (installedPackages st1) =
    getPackagesToInstallFromArgv (drop 2 process_argv).
Proof.
  unfold main, bind at 1.
  destruct (createInstallationDirectory_run st) as (r & created & -> & _).
  destruct r as [dir|e]; [|done].
  unfold try_catch, bind, lift, cleanup, emit, throw, repl_start, setupReplServer,
    bind, set_installed, set_context. cbn beta iota.
  destruct (validatePackageNames _ _ []) as [[]|e] eqn:Hval; [|done].
  set (st0 := mkState _ _ _).
  destruct (installPackages_run (getPackagesToInstallFromArgv (drop 2 process_argv))
              dir st0) as (r & evs & -> & Hmap & _).
  destruct r as [installed|e]; [|done]. cbn.
  pose proof (importPackagesIntoContext_installed installed
    (mkState (trace st0 ++ evs) installed (<[js "r" := VObject 0]> ∅))) as Hkeep.
  destruct (importPackagesIntoContext host installed _) as [[[]|e] st2]; [|done].
  intros [= _ <-]. simpl in Hkeep. rewrite Hkeep.
  by destruct (Hmap installed eq_refl).
Qed.

(** When the batch of the command line fails validation, [main] throws
    without having run the package manager; when the install root could
    be created, the error is the validation error and the root is removed
    again. *)
Lemma main_rejected process_argv st e :
  validatePackageNames (validateNpmPackageName host)
    (getPackagesToInstallFromArgv (drop 2 process_argv)) [] = Throws e ->
  exists e' evs,
    main host process_argv st =
    (Throws e', mkState (trace st ++ evs) (installedPackages st) (context st)) /\
    Forall (fun ev => is_install_event ev = false) evs /\
    (forall dir,
       mkdtemp host (trace st) (join host [tmpdir host; js "repl-with-"]) = Some dir ->
       e' = e /\
       evs = [EvMkdtemp (join host [tmpdir host; js "repl-with-"]) (Some dir); EvRm dir]).
Proof.
  intros Hval. unfold main, bind at 1.
  unfold createInstallationDirectory, bind, get_trace, emit. cbn beta iota.
  destruct (mkdtemp host (trace st) _) as [dir|] eqn:Hdir.
  - unfold ret, try_catch, bind, lift, cleanup, emit, throw. cbn beta iota.
    rewrite Hval. cbn. rewrite <- app_assoc.
    eexists _, _. split; [reflexivity|]. split; [by repeat constructor|].
    by intros ? [= <-].
  - eexists _, _. split; [reflexivity|]. split; [by repeat constructor|done].
Qed.

(** The aliases of the running list, as the validator sees them. *)
Lemma session_aliases_all st :
  session_aliases st = map alias (map toInstall (installedPackages st)).
Proof. unfold session_aliases. by rewrite map_map. Qed.

Lemma import_keeps_distinct args path st st' :
  import_result host args path st st' ->
  NoDup (session_aliases st) -> NoDup (session_aliases st').
Proof.
  intros [e Hval -> | e evs Hval Hrun -> | newly st1 Hval Hrun Hmap Hlist] Hnodup;
    [done|done|].
  apply validatePackageNames_returns in Hval as [_ Hall].
  unfold all_aliases in Hall. rewrite <- Hmap, map_app in Hall.
  rewrite session_aliases_all, Hlist, !map_app.
  by rewrite (Permutation_app_comm (map alias (map toInstall (installedPackages st)))).
Qed.

Lemma handle_keeps_distinct path c st r st' :
  handle host path c st = (r, st') ->
  NoDup (session_aliases st) -> NoDup (session_aliases st').
Proof.
  destruct c as [| args | |]; simpl.
  - by intros [= _ <-].
  - destruct (importAdditionalPackagesViaCommand_run args path st) as (st2 & -> & Hres).
    intros [= _ <-]. by apply (import_keeps_distinct args path).
  - by intros [= _ <-].
  - unfold bind, get_installed, set_context. cbn beta iota. intros Hrun Hnodup.
    pose proof (importPackagesIntoContext_installed (installedPackages st)
      (mkState (trace st) (installedPackages st) ∅)) as Hkeep.
    simpl in Hrun. rewrite Hrun in Hkeep. simpl in Hkeep.
    unfold session_aliases. by rewrite Hkeep.
Qed.

Lemma run_commands_keeps_distinct path cs st r st' :
  run_commands host path cs st = (r, st') ->
  NoDup (session_aliases st) -> NoDup (session_aliases st').
Proof.
  revert st. induction cs as [|c cs IH]; intros st; simpl.
  - by intros [= _ <-].
  - unfold bind. destruct (handle host path c st) as [[[]|e] st1] eqn:Hc.
    + intros Hrest Hnodup. apply (IH st1 Hrest).
      by apply (handle_keeps_distinct _ _ _ _ _ Hc).
    + intros [= _ <-] Hnodup. by apply (handle_keeps_distinct _ _ _ _ _ Hc).
Qed.

Lemma main_distinct process_argv st path st1 :
  main host process_argv st = (Returns path, st1) -> NoDup (session_aliases st1).
Proof.
  intros [Hval Hmap]%main_returns.
  apply validatePackageNames_returns in Hval as [_ Hall].
  unfold all_aliases in Hall. simpl in Hall. rewrite app_nil_r, <- Hmap in Hall.
  by rewrite session_aliases_all.
Qed.

(** The [.import] handler, cut at its first [await]. *)
Lemma import_in_two_parts args path st :
  (do settled <- import_until_await host args path ;; import_after_await host settled) st =
  importAdditionalPackagesViaCommand host args path st.
Proof.
  unfold import_until_await, import_after_await, importAdditionalPackagesViaCommand,
    settle, try_catch, bind, lift, get_installed.
  cbn beta iota.
  destruct (validatePackageNames _ _ (installedPackages st)) as [[]|e]; [|done].
  by destruct (installPackages host _ path st) as [[newly|e] st1].
Qed.

Lemma import_until_await_run args path st r st1 :
  validatePackageNames (validateNpmPackageName host)
    (getPackagesToInstallFromArgv (stringArgv host args)) (installedPackages st) =
    Returns tt ->
  installPackages host (getPackagesToInstallFromArgv (stringArgv host args)) path st =
    (r, st1) ->
  import_until_await host args path st = (Returns r, st1).
Proof.
  intros Hval Hrun.
  unfold import_until_await, settle, bind, lift, get_installed. cbn beta iota.
  by rewrite Hval, Hrun.
Qed.

Lemma import_after_await_run newly st :
  exists st', import_after_await host (Returns newly) st = (Returns tt, st') /\
    installedPackages st' = installedPackages st ++ newly.
Proof.
  unfold import_after_await, try_catch, bind, lift, get_installed, set_installed, ret.
  cbn beta iota.
  pose proof (importPackagesIntoContext_installed newly
    (mkState (trace st) (installedPackages st ++ newly) (context st))) as Hkeep.
  destruct (importPackagesIntoContext host newly _) as [[[]|e] st1]; simpl in Hkeep;
    by exists st1.
Qed.

Lemma installPackages_installed pkgs path st r st1 :
  installPackages host pkgs path st = (r, st1) ->
  installedPackages st1 = installedPackages st /\
  (forall l, r = Returns l -> map toInstall l = pkgs).
Proof.
  destruct (installPackages_run pkgs path st) as (r' & evs & -> & Hmap & _).
  intros [= -> <-]. split; [done|]. intros l Hl. by destruct (Hmap l Hl).
Qed.

End SessionFacts.

(** ** Facts about the mapper *)

Section MapperFacts.

(** What the mapper makes of one token. *)
Lemma mapper_record arg :
  getPackagesToInstallFromArgv [arg] =
  [if includes (cu "=") arg
   then {| toPackage := parsePackageSpec (before_first (cu "=") (after_first (cu "=") arg));
           spec := before_first (cu "=") (after_first (cu "=") arg);
           alias := before_first (cu "=") arg |}
   else {| toPackage := parsePackageSpec arg;
           spec := arg;
           alias := name (parsePackageSpec arg) |}].
Proof.
  unfold getPackagesToInstallFromArgv. simpl.
  destruct (includes (cu "=") arg) eqn:Hinc; [|done].
  by rewrite split_head, split_second.
Qed.

Lemma mapper_cons arg argv :
  getPackagesToInstallFromArgv (arg :: argv) =
  getPackagesToInstallFromArgv [arg] ++ getPackagesToInstallFromArgv argv.
Proof. reflexivity. Qed.

(** One record per token. *)
Lemma mapper_length argv :
  List.length (getPackagesToInstallFromArgv argv) = List.length argv.
Proof. apply length_map. Qed.

(** With a single [=] in the token the specifier is all the text after it. *)
Lemma mapper_single_separator arg :
  includes (cu "=") arg = true ->
  includes (cu "=") (after_first (cu "=") arg) = false ->
  map (fun p => (alias p, spec p)) (getPackagesToInstallFromArgv [arg]) =
  [(before_first (cu "=") arg, after_first (cu "=") arg)].
Proof.
  intros Hinc Hone. rewrite mapper_record, Hinc. simpl.
  by rewrite (before_first_no_sep _ _ Hone).
Qed.

End MapperFacts.

(** ** Facts about the binding rule *)

Section ImportFacts.

Variable host : Host.

(** A single default export of truthy value is bound in place of the
    module. *)
Lemma bound_value_default v :
  truthy v = true -> bound_value [(js "default", v)] = v.
Proof.
  intros Hv. unfold bound_value. simpl. by rewrite Hv.
Qed.

(** A single default export of falsy value is not. *)
Lemma bound_value_default_falsy v :
  truthy v = false -> bound_value [(js "default", v)] = VNamespace [(js "default", v)].
Proof.
  intros Hv. unfold bound_value. simpl. by rewrite Hv.
Qed.

(** A module with no export or several is bound whole. *)
Lemma bound_value_not_single pkg :
  List.length (object_keys pkg) <> 1%nat -> bound_value pkg = VNamespace pkg.
Proof.
  intros Hlen. unfold bound_value.
  by destruct (Nat.eqb_spec (List.length (object_keys pkg)) 1).
Qed.

(** A module whose single export is not the default one is bound whole. *)
Lemma bound_value_single_named k v :
  k <> js "default" -> bound_value [(k, v)] = VNamespace [(k, v)].
Proof.
  intros Hk. unfold bound_value. simpl.
  by rewrite bool_decide_eq_false_2 by done.
Qed.

(** The importer binds [bound_value] of the loaded module to the alias,
    overwriting what was bound there. *)
Lemma importPackageIntoContext_binds installed st url pkg :
  importMetaResolve host (trace st) (uuid installed ++ subpath installed)
    (js "file://" ++ resolve host [installedPath installed; js ".."]) = Some url ->
  dynamicImport host (trace st) url = Some pkg ->
  importPackageIntoContext host installed st =
  (Returns tt,
   mkState (trace st ++ [EvImport (Some url) (Some pkg)]) (installedPackages st)
     (<[alias installed := bound_value pkg]> (context st))).
Proof.
  intros Hurl Hpkg. unfold importPackageIntoContext, bind, get_trace, emit, set_context.
  cbn beta iota. by rewrite Hurl, Hpkg.
Qed.

End ImportFacts.

(** * The properties of the specification *)

(** C1. For every specifier [s] of the grammar
    [(@scope/)?name(@version)?(/subpath)?], the fields [parsePackageSpec s]
    returns satisfy [scope + name + version + subpath = s] and
    [install = scope + name + version]. *)
Theorem parse_reconstructs (s : jsstring) :
  matches_grammar s ->
  let p := parsePackageSpec s in
  scope p ++ name p ++ version p ++ subpath p = s /\
  install p = scope p ++ name p ++ version p.
Proof.
  intros (sc & nm & v & sp & Hparts & ->).
  rewrite (parsePackageSpec_parts _ _ _ _ Hparts). simpl. done.
Qed.

Lemma parse_reconstructs_witness :
  matches_grammar (js "@org/module@4.0.0/subpath") /\
  let p := parsePackageSpec (js "@org/module@4.0.0/subpath") in
  scope p ++ name p ++ version p ++ subpath p = js "@org/module@4.0.0/subpath" /\
  install p = scope p ++ name p ++ version p.
Proof.
  assert (H : matches_grammar (js "@org/module@4.0.0/subpath")).
  { apply test_spec_iff. vm_compute. reflexivity. }
  split; [exact H|]. exact (parse_reconstructs _ H).
Defined.

(** C2. The aliases of the installed list do not stay pairwise distinct
    when two [.import] lines overlap.  The handler validates the new
    aliases against the list, then waits for the installations, then
    pushes; a second line entered during that wait is validated against
    the same list.  When both batches pass the validation and install,
    both are pushed, and an alias they share is in the list twice.  (A
    handler that runs to its end before the next starts keeps the
    aliases distinct.) *)
Theorem overlapping_imports_repeat_alias (host : Host) (args1 args2 path : jsstring)
    (st st1 st2 : state) (newly1 newly2 : list InstalledPackage) (a : jsstring) :
  let batch1 := getPackagesToInstallFromArgv (stringArgv host args1) in
  let batch2 := getPackagesToInstallFromArgv (stringArgv host args2) in
  validatePackageNames (validateNpmPackageName host) batch1 (installedPackages st) =
    Returns tt ->
  validatePackageNames (validateNpmPackageName host) batch2 (installedPackages st) =
    Returns tt ->
  installPackages host batch1 path st = (Returns newly1, st1) ->
  installPackages host batch2 path st1 = (Returns newly2, st2) ->
  a ∈ map alias batch1 ->
  a ∈ map alias batch2 ->
  exists st',
    overlapping_imports host args1 args2 path st = (Returns tt, st') /\
    installedPackages st' = installedPackages st ++ newly1 ++ newly2 /\
    ~ NoDup (session_aliases st').
Proof.
  cbv zeta. intros Hval1 Hval2 Hrun1 Hrun2 Ha1 Ha2.
  destruct (installPackages_installed host _ _ _ _ _ Hrun1) as [Hlist1 Hmap1].
  destruct (installPackages_installed host _ _ _ _ _ Hrun2) as [Hlist2 Hmap2].
  specialize (Hmap1 newly1 eq_refl). specialize (Hmap2 newly2 eq_refl).
  rewrite <- Hlist1 in Hval2.
  unfold overlapping_imports, bind.
  rewrite (import_until_await_run host args1 path st _ _ Hval1 Hrun1).
  rewrite (import_until_await_run host args2 path st1 _ _ Hval2 Hrun2).
  destruct (import_after_await_run host newly1 st2) as (st3 & -> & Hlist3).
  destruct (import_after_await_run host newly2 st3) as (st4 & -> & Hlist4).
  exists st4. split; [done|].
  assert (installedPackages st4 = installedPackages st ++ newly1 ++ newly2) as Hlist
    by (by rewrite Hlist4, Hlist3, Hlist2, Hlist1, <- app_assoc).
  split; [done|].
  rewrite session_aliases_all, Hlist, !map_app, Hmap1, Hmap2.
  intros (_ & _ & (_ & Hdisjoint & _)%NoDup_app)%NoDup_app.
  exact (Hdisjoint a Ha1 Ha2).
Qed.

Lemma overlapping_imports_repeat_alias_witness :
  exists (path : jsstring) (st0 st' : state),
    main sample_host [js "node"; js "repl-with"] initial_state = (Returns path, st0) /\
    overlapping_imports sample_host (js "lodash") (js "lodash") path st0 =
      (Returns tt, st') /\
    session_aliases st' = [js "lodash"; js "lodash"] /\
    ~ NoDup (session_aliases st').
Proof.
  assert (exists path st0,
    main sample_host [js "node"; js "repl-with"] initial_state = (Returns path, st0))
    as (path & st0 & Hmain) by (eexists _, _; vm_compute; reflexivity).
  assert (exists newly1 st1 newly2 st2,
    installPackages sample_host
      (getPackagesToInstallFromArgv (stringArgv sample_host (js "lodash"))) path st0 =
      (Returns newly1, st1) /\
    installPackages sample_host
      (getPackagesToInstallFromArgv (stringArgv sample_host (js "lodash"))) path st1 =
      (Returns newly2, st2) /\
    map (fun p : InstalledPackage => alias p) (installedPackages st0 ++ newly1 ++ newly2) =
      [js "lodash"; js "lodash"])
    as (newly1 & st1 & newly2 & st2 & Hrun1 & Hrun2 & Haliases).
  { vm_compute in Hmain. injection Hmain as <- <-.
    eexists _, _, _, _. split; [vm_compute; reflexivity|].
    split; vm_compute; reflexivity. }
  assert (validatePackageNames (validateNpmPackageName sample_host)
            (getPackagesToInstallFromArgv (stringArgv sample_host (js "lodash")))
            (installedPackages st0) = Returns tt) as Hval.
  { vm_compute in Hmain. injection Hmain as <- <-. vm_compute. reflexivity. }
  destruct (overlapping_imports_repeat_alias sample_host (js "lodash") (js "lodash") path
              st0 st1 st2 newly1 newly2 (js "lodash") Hval Hval Hrun1 Hrun2)
    as (st' & Hrun & Hlist & Hdup).
  - vm_compute. left.
  - vm_compute. left.
  - exists path, st0, st'. split; [done|]. split; [done|]. split; [|done].
    unfold session_aliases. by rewrite Hlist.
Defined.

(** C3. The mapper returns one record per token, in order; but for a token
    with more than one [=] the specifier it parses and stores is the text
    between the first and the second [=], not all the text after the
    first: from ["l=lodash@>=4.0.0"] it keeps ["lodash@>"]. *)
Theorem mapper_cuts_at_second_separator :
  getPackagesToInstallFromArgv [js "l=lodash@>=4.0.0"] =
  [{| toPackage := mkPackage (js "lodash@>") [] (js "lodash") (js "@>") [];
      spec := js "lodash@>";
      alias := js "l" |}] /\
  after_first (cu "=") (js "l=lodash@>=4.0.0") = js "lodash@>=4.0.0" /\
  js "lodash@>" <> js "lodash@>=4.0.0".
Proof. split; [by vm_compute|]. split; [by vm_compute|]. by vm_compute. Qed.

(** C4. The default export is bound in place of the module only when it
    is the single export and its value is truthy: a module whose only
    export is a default export of value [0] is bound to the alias as the
    whole module object. *)
Theorem falsy_default_binds_module :
  let pkg : namespace := [(js "default", VNumber 0)] in
  object_keys pkg = [js "default"] /\
  get_property pkg (js "default") = VNumber 0 /\
  bound_value pkg = VNamespace pkg /\
  context (importPackageIntoContext (host_loading pkg) (installed_as (js "zero"))
             initial_state).2 !! js "zero" = Some (VNamespace pkg).
Proof.
  cbv zeta. split; [by vm_compute|]. split; [by vm_compute|].
  split; [by apply bound_value_default_falsy|].
  erewrite importPackageIntoContext_binds; [|reflexivity..]. simpl.
  by rewrite lookup_insert_eq, bound_value_default_falsy.
Qed.

(** C5. When [validatePackageNames] throws, no package of the batch has
    been handed to the package manager.  At startup [main] throws with
    the installed list as it was and no run of the package manager in the
    trace (the install root, still empty, is removed by [cleanup]); in
    the [.import] handler the state is left exactly as it was. *)
Theorem validation_precedes_installation (host : Host) :
  (forall (process_argv : list jsstring) (st : state) (e : error),
     validatePackageNames (validateNpmPackageName host)
       (getPackagesToInstallFromArgv (drop 2 process_argv)) [] = Throws e ->
     exists e' evs,
       main host process_argv st =
       (Throws e', mkState (trace st ++ evs) (installedPackages st) (context st)) /\
       Forall (fun ev => is_install_event ev = false) evs /\
       (forall dir,
          mkdtemp host (trace st) (join host [tmpdir host; js "repl-with-"]) = Some dir ->
          e' = e /\
          evs = [EvMkdtemp (join host [tmpdir host; js "repl-with-"]) (Some dir); EvRm dir])) /\
  (forall (args path : jsstring) (st : state) (e : error),
     validatePackageNames (validateNpmPackageName host)
       (getPackagesToInstallFromArgv (stringArgv host args)) (installedPackages st) = Throws e ->
     importAdditionalPackagesViaCommand host args path st = (Returns tt, st)).
Proof.
  split.
  - intros process_argv st e. apply main_rejected.
  - intros args path st e Hval.
    unfold importAdditionalPackagesViaCommand, try_catch, bind, lift, get_installed.
    cbn beta iota. by rewrite Hval.
Qed.

Lemma validation_precedes_installation_witness :
  main sample_host [js "node"; js "repl-with"; js "lodash"; js "class=moment"] initial_state =
    (Throws (InvalidAlias (js "class")),
     mkState [EvMkdtemp (js "/tmp/repl-with-") (Some (js "/tmp/repl-with-XXXXXX"));
              EvRm (js "/tmp/repl-with-XXXXXX")] [] ∅) /\
  importAdditionalPackagesViaCommand sample_host (js "lodash 2x=moment")
    (js "/tmp/repl-with-XXXXXX") initial_state = (Returns tt, initial_state).
Proof.
  destruct (validation_precedes_installation sample_host) as [Hmain Himport].
  split.
  - destruct (Hmain [js "node"; js "repl-with"; js "lodash"; js "class=moment"]
                initial_state (InvalidAlias (js "class")))
      as (e' & evs & -> & _ & Hdir); [by vm_compute|].
    destruct (Hdir (js "/tmp/repl-with-XXXXXX")) as [-> ->]; [by vm_compute|].
    by vm_compute.
  - apply (Himport _ _ _ (InvalidAlias (js "2x"))). by vm_compute.
Defined.

(** C6. When the registry rules accept the name [lodash], validating the
    records mapped from ["lodash@3.0.0"] and ["lodash@4.0.0"] throws the
    duplicate-alias error, and validating those mapped from
    ["l1=lodash@3.0.0"] and ["l2=lodash@3.0.0"] returns. *)
Theorem lodash_batches (validateNpmPackageName : jsstring -> option (list jsstring)) :
  has_errors (validateNpmPackageName (js "lodash")) = false ->
  validatePackageNames validateNpmPackageName
    (getPackagesToInstallFromArgv [js "lodash@3.0.0"; js "lodash@4.0.0"]) [] =
    Throws NamesNotUnique /\
  validatePackageNames validateNpmPackageName
    (getPackagesToInstallFromArgv [js "l1=lodash@3.0.0"; js "l2=lodash@3.0.0"]) [] =
    Returns tt.
Proof.
  intros Hname.
  assert (E1 : getPackagesToInstallFromArgv [js "lodash@3.0.0"; js "lodash@4.0.0"] =
    [mkPackageToInstall (mkPackage (js "lodash@3.0.0") [] (js "lodash") (js "@3.0.0") [])
       (js "lodash@3.0.0") (js "lodash");
     mkPackageToInstall (mkPackage (js "lodash@4.0.0") [] (js "lodash") (js "@4.0.0") [])
       (js "lodash@4.0.0") (js "lodash")]) by (by vm_compute).
  assert (E2 : getPackagesToInstallFromArgv [js "l1=lodash@3.0.0"; js "l2=lodash@3.0.0"] =
    [mkPackageToInstall (mkPackage (js "lodash@3.0.0") [] (js "lodash") (js "@3.0.0") [])
       (js "lodash@3.0.0") (js "l1");
     mkPackageToInstall (mkPackage (js "lodash@3.0.0") [] (js "lodash") (js "@3.0.0") [])
       (js "lodash@3.0.0") (js "l2")]) by (by vm_compute).
  assert (Hok : forall a v, isValidJsVariableName a = true ->
    record_ok validateNpmPackageName
      (mkPackageToInstall (mkPackage (js "lodash" ++ v) [] (js "lodash") v [])
         (js "lodash" ++ v) a)).
  { intros a v Ha. split; [exact Ha|exact Hname]. }
  rewrite E1, E2. split.
  - apply validatePackageNames_not_unique.
    + repeat constructor; by apply (Hok _ (js "@3.0.0")) || by apply (Hok _ (js "@4.0.0")).
    + intros Hnodup. apply NoDup_cons in Hnodup as [Hnin _]. apply Hnin. by left.
  - apply validatePackageNames_returns. split.
    + repeat constructor; by apply (Hok _ (js "@3.0.0")).
    + apply (bool_decide_unpack _). by vm_compute.
Qed.

Lemma lodash_batches_witness :
  validatePackageNames sample_validator
    (getPackagesToInstallFromArgv [js "lodash@3.0.0"; js "lodash@4.0.0"]) [] =
    Throws NamesNotUnique /\
  validatePackageNames sample_validator
    (getPackagesToInstallFromArgv [js "l1=lodash@3.0.0"; js "l2=lodash@3.0.0"]) [] =
    Returns tt.
Proof. apply (lodash_batches sample_validator). reflexivity. Defined.

(** C7. The alias check accepts exactly the variable names of the
    language that are made of ASCII characters (an ASCII letter, [_] or
    [$], then ASCII letters, digits, [_] and [$], and no reserved word),
    the words [let] and [await] left aside; every alias it accepts is an
    identifier of the language.  ["class"] is rejected, so is every
    string that starts with a digit, and ["_"] and ["$foo"] are
    accepted. *)
Theorem ascii_alias_validation :
  (forall s : jsstring,
     s <> js "let" -> s <> js "await" ->
     (isValidJsVariableName s = true <->
      es_variable_name s /\ Forall (fun c => c < 128) s)) /\
  (forall s : jsstring, isValidJsVariableName s = true -> es_identifier_name s) /\
  isValidJsVariableName (js "class") = false /\
  (forall (d : code_unit) (t : jsstring), digit d -> isValidJsVariableName (d :: t) = false) /\
  isValidJsVariableName (js "_") = true /\
  isValidJsVariableName (js "$foo") = true.
Proof.
  split; [|split; [|split; [by vm_compute|split; [|split; by vm_compute]]]].
  - intros s Hlet Hawait.
    rewrite isValidJsVariableName_iff, is_identifier_ascii.
    unfold es_variable_name.
    pose proof (reserved_words_compared s) as Hwords. tauto.
  - intros s [Hid _]%isValidJsVariableName_iff.
    by apply is_identifier_ascii in Hid as [Hname _].
  - intros d t Hd. apply not_true_is_false.
    intros [Hid _]%isValidJsVariableName_iff.
    by apply (identifier_not_digit_first d t).
Qed.

Lemma ascii_alias_validation_witness :
  isValidJsVariableName (js "1abc") = false /\
  (isValidJsVariableName (js "lodash3") = true <->
   es_variable_name (js "lodash3") /\ Forall (fun c => c < 128) (js "lodash3")) /\
  es_identifier_name (js "$foo").
Proof.
  destruct ascii_alias_validation as (Hiff & Hname & _ & Hdigit & _ & Hfoo).
  split; [|split].
  - apply (Hdigit (cu "1") (js "abc")). unfold digit, cu. simpl. lia.
  - apply Hiff; by vm_compute.
  - apply Hname, Hfoo.
Defined.

(** The alias check does not accept every variable name of the language:
    the one-letter name U+00E9 is an identifier and no reserved word,
    and the check rejects it. *)
Lemma alias_validation_counterexample :
  es_variable_name [233] /\
  isValidJsVariableName [233] = false /\
  ~ (forall s : jsstring, isValidJsVariableName s = true <-> es_variable_name s).
Proof.
  assert (es_variable_name [233]) as Hname.
  { split.
    - exists 233, []. split; [done|]. split; [|constructor].
      unfold es_identifier_start, latin1_letter. lia.
    - apply (bool_decide_unpack _). by vm_compute. }
  assert (isValidJsVariableName [233] = false) as Hrejected by (by vm_compute).
  split; [done|]. split; [done|].
  intros Hall. apply Hall in Hname. congruence.
Qed.

(** C8. [parsePackageSpec] returns a record for every input string: on a
    specifier of the grammar the fields are its parts, an absent part
    being the empty string; on any other input, such as the empty string
    or a string that begins with [/], every field is the empty string. *)
Theorem parse_never_fails :
  (forall s : jsstring,
     (exists sc nm v sp, specifier_parts sc nm v sp /\ s = sc ++ nm ++ v ++ sp /\
        parsePackageSpec s = mkPackage (sc ++ nm ++ v) sc nm v sp) \/
     (~ matches_grammar s /\ parsePackageSpec s = empty_package)) /\
  parsePackageSpec [] = empty_package /\
  (forall t : jsstring, parsePackageSpec (cu "/" :: t) = empty_package).
Proof.
  split; [|split].
  - intros s. destruct (test packageSpecPattern s) eqn:Htest.
    + left. apply test_spec_iff in Htest as (sc & nm & v & sp & Hparts & ->).
      exists sc, nm, v, sp. split; [done|]. split; [done|].
      by apply parsePackageSpec_parts.
    + right. assert (~ matches_grammar s) as Hno.
      { intros H%test_spec_iff. congruence. }
      split; [done|]. by apply parsePackageSpec_no_match.
  - apply parsePackageSpec_no_match, not_matches_nil.
  - intros t. apply parsePackageSpec_no_match, not_matches_slash.
Qed.

(** C9. In the [.import] handler, when validation throws or an
    installation of the batch fails, the installed list is left as it
    was; the list changes only by appending the whole batch, after every
    run of the package manager for it has succeeded. *)
Theorem failed_import_keeps_list (host : Host) :
  forall (args path : jsstring) (st : state),
    let newPackages := getPackagesToInstallFromArgv (stringArgv host args) in
    let st' := (importAdditionalPackagesViaCommand host args path st).2 in
    ((exists e, validatePackageNames (validateNpmPackageName host)
                  newPackages (installedPackages st) = Throws e) ->
     installedPackages st' = installedPackages st) /\
    ((exists e, (installPackages host newPackages path st).1 = Throws e) ->
     installedPackages st' = installedPackages st) /\
    (installedPackages st' <> installedPackages st ->
     exists newly evs,
       installPackages host newPackages path st =
         (Returns newly, mkState (trace st ++ evs) (installedPackages st) (context st)) /\
       Forall exec_succeeded evs /\
       map toInstall newly = newPackages /\
       installedPackages st' = installedPackages st ++ newly).
Proof.
  intros args path st newPackages st'. subst newPackages st'.
  destruct (importAdditionalPackagesViaCommand_run host args path st) as (st2 & -> & Hres).
  destruct (installPackages_run host
    (getPackagesToInstallFromArgv (stringArgv host args)) path st)
    as (r & evs & Hinst & Hok & _).
  simpl. destruct Hres as [e Hval -> | e evs' Hval Hrun -> | newly st1 Hval Hrun Hmap Hlist].
  - split; [done|]. split; done.
  - split; [done|]. split; done.
  - split; [intros [e He]; congruence|]. split.
    + rewrite Hrun. simpl. by intros [e He].
    + intros _. rewrite Hinst in Hrun. injection Hrun as -> <-.
      destruct (Hok newly eq_refl) as [_ Hevs]. exists newly, evs. done.
Qed.

Lemma failed_import_keeps_list_witness :
  (importAdditionalPackagesViaCommand sample_host (js "m=moment x=bad!")
     (js "/tmp/repl-with-XXXXXX") initial_state).1 = Returns tt /\
  installedPackages
    (importAdditionalPackagesViaCommand sample_host (js "m=moment x=bad!")
       (js "/tmp/repl-with-XXXXXX") initial_state).2 = [].
Proof.
  split; [by vm_compute|].
  destruct (failed_import_keeps_list sample_host (js "m=moment x=bad!")
              (js "/tmp/repl-with-XXXXXX") initial_state) as (_ & Hfail & _).
  apply Hfail. exists (InstallFailed (js "bad!")). by vm_compute.
Defined.

(** C10. A token without [=] that is not a specifier of the grammar gets
    the empty alias; a batch with an empty alias never passes validation;
    so every record of a batch that passes has a nonempty alias that is
    an identifier and not a reserved word. *)
Theorem unmatched_token_rejected
    (validateNpmPackageName : jsstring -> option (list jsstring)) :
  (forall (before after : list jsstring) (tok : jsstring),
     includes (cu "=") tok = false -> ~ matches_grammar tok ->
     alias <$> (getPackagesToInstallFromArgv (before ++ tok :: after) !! List.length before) =
     Some []) /\
  (forall (newPackages : list PackageToInstall) (alreadyInstalled : list InstalledPackage)
          (pkg : PackageToInstall),
     pkg ∈ newPackages -> alias pkg = [] ->
     exists e, validatePackageNames validateNpmPackageName newPackages alreadyInstalled = Throws e) /\
  (forall (newPackages : list PackageToInstall) (alreadyInstalled : list InstalledPackage),
     validatePackageNames validateNpmPackageName newPackages alreadyInstalled = Returns tt ->
     Forall (fun pkg : PackageToInstall =>
               alias pkg <> [] /\ is_identifier (alias pkg) /\ alias pkg ∉ JS_RESERVED_WORDS)
       newPackages).
Proof.
  assert (Hpass : forall newPackages alreadyInstalled,
    validatePackageNames validateNpmPackageName newPackages alreadyInstalled = Returns tt ->
    Forall (fun pkg : PackageToInstall =>
              alias pkg <> [] /\ is_identifier (alias pkg) /\ alias pkg ∉ JS_RESERVED_WORDS)
      newPackages).
  { intros newPackages alreadyInstalled [Hall _]%validatePackageNames_returns.
    eapply Forall_impl; [exact Hall|]. intros pkg [Hvalid _].
    apply isValidJsVariableName_iff in Hvalid as [Hid Hres].
    split; [|done]. by destruct Hid as (c & t & -> & _). }
  split; [|split; [|exact Hpass]].
  - intros before after tok Hinc Hno.
    induction before as [|b before IH]; cbn [app List.length];
      rewrite mapper_cons, mapper_record; [|by destruct (includes _ b)].
    by rewrite Hinc, (parsePackageSpec_no_match _ Hno).
  - intros newPackages alreadyInstalled pkg Hin Hempty.
    destruct (validatePackageNames_cases validateNpmPackageName newPackages alreadyInstalled)
      as [Hok|?]; [|done].
    apply Hpass in Hok. rewrite Forall_forall in Hok.
    destruct (Hok pkg Hin) as [? _]. done.
Qed.

Lemma unmatched_token_rejected_witness :
  alias <$> (getPackagesToInstallFromArgv [js "lodash"; js "/oops"] !! 1%nat) = Some [] /\
  exists e, validatePackageNames sample_validator
              (getPackagesToInstallFromArgv [js "lodash"; js "/oops"]) [] = Throws e.
Proof.
  destruct (unmatched_token_rejected sample_validator) as (Hempty & Hreject & _).
  split.
  - apply (Hempty [js "lodash"] [] (js "/oops")); [reflexivity|].
    apply not_matches_slash.
  - apply (Hreject _ [] (mkPackageToInstall empty_package (js "/oops") [])); [|reflexivity].
    vm_compute. right. left.
Defined.

(** * Further properties of the code *)

(** ** The specifier parser *)

Section ParserProperties.

Lemma parse_cases (s : jsstring) :
  (exists sc nm v sp, specifier_parts sc nm v sp /\ s = sc ++ nm ++ v ++ sp /\
     parsePackageSpec s = mkPackage (sc ++ nm ++ v) sc nm v sp) \/
  (~ matches_grammar s /\ parsePackageSpec s = empty_package).
Proof.
  destruct (test packageSpecPattern s) eqn:Htest.
  - left. apply test_spec_iff in Htest as (sc & nm & v & sp & Hparts & ->).
    exists sc, nm, v, sp. split; [done|]. split; [done|].
    by apply parsePackageSpec_parts.
  - right. assert (~ matches_grammar s) as Hno.
    { intros H%test_spec_iff. congruence. }
    split; [done|]. by apply parsePackageSpec_no_match.
Qed.

Lemma is_name_ne nm : is_name nm -> nm <> [].
Proof. by intros [? _]. Qed.

Lemma specifier_parts_no_subpath sc nm v sp :
  specifier_parts sc nm v sp -> specifier_parts sc nm v [].
Proof. intros (? & ? & ? & _). do 3 (split; [done|]). by left. Qed.

(** X1. The name field is empty exactly when the input is not a specifier
    of the grammar, and so is the install field: an empty name is how a
    caller recognises a malformed specifier. *)
Theorem parsed_name_empty_iff (s : jsstring) :
  (name (parsePackageSpec s) = [] <-> ~ matches_grammar s) /\
  (install (parsePackageSpec s) = [] <-> ~ matches_grammar s).
Proof.
  destruct (parse_cases s) as [(sc & nm & v & sp & Hparts & -> & ->) | [Hno ->]].
  - assert (matches_grammar (sc ++ nm ++ v ++ sp)) as Hyes by (by exists sc, nm, v, sp).
    destruct Hparts as (_ & Hnm%is_name_ne & _). simpl. split.
    + split; [done|]. by intros [].
    + split; [|by intros []].
      intros [_ [Hn _]%app_eq_nil]%app_eq_nil. done.
  - simpl. split; by split.
Qed.

(** X2. The install field of any parsed input is itself a specifier that
    parses to the same scope, name and version with no subpath: dropping
    the subpath loses nothing the package manager needs. *)
Theorem install_parses_back (s : jsstring) :
  parsePackageSpec (install (parsePackageSpec s)) =
  mkPackage (install (parsePackageSpec s)) (scope (parsePackageSpec s))
    (name (parsePackageSpec s)) (version (parsePackageSpec s)) [].
Proof.
  destruct (parse_cases s) as [(sc & nm & v & sp & Hparts & -> & ->) | [Hno ->]]; simpl.
  - pose proof (parsePackageSpec_parts _ _ _ _ (specifier_parts_no_subpath _ _ _ _ Hparts))
      as H. by rewrite app_nil_r in H.
  - apply parsePackageSpec_no_match, not_matches_nil.
Qed.

Lemma not_matches_at_no_slash x :
  Forall (fun c => c <> slash) x -> ~ matches_grammar (at_sign :: x).
Proof.
  intros Hx (sc & nm & v & sp & (Hsc & Hnm & _) & Heq).
  destruct (name_head nm Hnm) as (a & t & -> & Ha & _).
  destruct Hsc as [-> | (y & _ & _ & ->)]; simpl in Heq.
  - injection Heq as Heq _. by symmetry in Heq.
  - injection Heq as Heq. rewrite Forall_forall in Hx.
    apply (Hx slash); [|done]. rewrite Heq. rewrite !elem_of_app. left. right. by left.
Qed.

Lemma not_matches_scope_only x :
  Forall (fun c => c <> slash) x -> ~ matches_grammar (at_sign :: x ++ [slash]).
Proof.
  intros Hx (sc & nm & v & sp & (Hsc & Hnm & _) & Heq).
  destruct (name_head nm Hnm) as (a & t & -> & Ha & _).
  destruct Hsc as [-> | (y & _ & Hy & ->)%is_scope_alt]; simpl in Heq.
  - injection Heq as Heq _. by symmetry in Heq.
  - injection Heq as Heq. rewrite <- !app_assoc in Heq.
    apply all_in_not_slash in Hx.
    destruct (span_unique not_slash x y [slash] ([47] ++ a :: t ++ v ++ sp)
                Hx Hy eq_refl eq_refl Heq) as [_ Hrest].
    simpl in Hrest. by injection Hrest.
Qed.

Lemma matches_name_prefix nm rest :
  is_name nm -> stops not_slash_at rest -> matches_grammar (nm ++ rest) ->
  exists v sp, optional is_version v /\ optional is_subpath sp /\ rest = v ++ sp.
Proof.
  intros Hnm Hstop (sc & nm' & v & sp & (Hsc & Hnm' & Hv & Hsp) & Heq).
  destruct (name_head nm Hnm) as (a & t & -> & Ha & _).
  destruct Hsc as [-> | (y & _ & _ & ->)]; simpl in Heq; [|by injection Heq as -> _].
  apply is_name_alt in Hnm, Hnm'.
  destruct (span_unique not_slash_at (a :: t) nm' rest (v ++ sp) (proj2 Hnm) (proj2 Hnm')
              Hstop (stops_after_name _ _ Hv Hsp) Heq) as [_ ->].
  eauto.
Qed.

Lemma not_matches_dangling_slash nm : is_name nm -> ~ matches_grammar (nm ++ [slash]).
Proof.
  intros Hnm Hm.
  destruct (matches_name_prefix nm [slash] Hnm eq_refl Hm) as (v & sp & Hv & Hsp & Heq).
  destruct Hv as [-> | (x & _ & _ & ->)]; [|done].
  destruct Hsp as [-> | (y & Hy & _ & ->)]; [done|].
  simpl in Heq. injection Heq as Heq. by symmetry in Heq.
Qed.

Lemma not_matches_dangling_at nm : is_name nm -> ~ matches_grammar (nm ++ [at_sign]).
Proof.
  intros Hnm Hm.
  destruct (matches_name_prefix nm [at_sign] Hnm eq_refl Hm) as (v & sp & Hv & Hsp & Heq).
  destruct Hv as [-> | (x & Hx & _ & ->)].
  - destruct Hsp as [-> | (y & _ & _ & ->)]; done.
  - simpl in Heq. injection Heq as Heq. symmetry in Heq.
    by apply app_eq_nil in Heq as [? _].
Qed.

(** X3. A specifier cut short parses to the empty record: a scope without
    a name (["@org"], ["@org/"]) and a name followed by a bare separator
    (["name/"], ["name@"]) leave every field empty. *)
Theorem incomplete_specifier_is_empty (nm x : jsstring) :
  is_name nm -> Forall (fun c => c <> slash) x ->
  parsePackageSpec (at_sign :: x) = empty_package /\
  parsePackageSpec (at_sign :: x ++ [slash]) = empty_package /\
  parsePackageSpec (nm ++ [slash]) = empty_package /\
  parsePackageSpec (nm ++ [at_sign]) = empty_package.
Proof.
  intros Hnm Hx. repeat split; apply parsePackageSpec_no_match.
  - by apply not_matches_at_no_slash.
  - by apply not_matches_scope_only.
  - by apply not_matches_dangling_slash.
  - by apply not_matches_dangling_at.
Qed.

Lemma all_in_forallb p (x : jsstring) : forallb p x = true -> all_in p x.
Proof.
  induction x as [|a x IH]; simpl; [by constructor|].
  intros [Ha Hx]%andb_true_iff. constructor; [exact Ha|by apply IH].
Qed.

Lemma is_name_decide (nm : jsstring) :
  nm <> [] -> forallb not_slash_at nm = true -> is_name nm.
Proof.
  intros Hne Hall. apply is_name_alt. split; [done|]. by apply all_in_forallb.
Qed.

Lemma no_slash_decide (x : jsstring) :
  forallb not_slash x = true -> Forall (fun c => c <> slash) x.
Proof. intros Hall. apply all_in_not_slash. by apply all_in_forallb. Qed.

Lemma incomplete_specifier_is_empty_witness :
  parsePackageSpec (js "@types") = empty_package /\
  parsePackageSpec (js "@types/") = empty_package /\
  parsePackageSpec (js "lodash/") = empty_package /\
  parsePackageSpec (js "lodash@") = empty_package.
Proof.
  apply (incomplete_specifier_is_empty (js "lodash") (js "types")).
  - apply is_name_decide; [done|reflexivity].
  - apply no_slash_decide. reflexivity.
Defined.

End ParserProperties.

(** ** The argument mapper *)

Section MapperProperties.

Lemma before_after_first c s :
  includes c s = true -> before_first c s ++ c :: after_first c s = s.
Proof.
  unfold includes. induction s as [|x t IH]; simpl; [done|].
  rewrite (N.eqb_sym c x). destruct (N.eqb_spec x c) as [->|Hne]; simpl; [done|].
  intros Hin. by rewrite IH.
Qed.

(** X4. Alias and specifier put a token back together: with a single [=]
    the token is alias, [=], specifier; with none it is the specifier. *)
Theorem token_reassembles (argv : list jsstring) :
  Forall (fun arg => includes (cu "=") (after_first (cu "=") arg) = false) argv ->
  Forall2 (fun arg (p : PackageToInstall) =>
             arg = if includes (cu "=") arg then alias p ++ cu "=" :: spec p else spec p)
    argv (getPackagesToInstallFromArgv argv).
Proof.
  induction 1 as [|arg argv Hone _ IH]; [constructor|].
  rewrite mapper_cons, mapper_record. simpl. constructor; [|exact IH].
  destruct (includes (cu "=") arg) eqn:Hinc; [|done]. simpl.
  rewrite (before_first_no_sep _ _ Hone). symmetry. by apply before_after_first.
Qed.

Lemma token_reassembles_witness :
  Forall2 (fun arg (p : PackageToInstall) =>
             arg = if includes (cu "=") arg then alias p ++ cu "=" :: spec p else spec p)
    [js "lodash"; js "m=moment@2.0/min"]
    (getPackagesToInstallFromArgv [js "lodash"; js "m=moment@2.0/min"]).
Proof. apply token_reassembles. repeat constructor. Defined.

Lemma mapper_unaliased (sc nm v sp : jsstring) :
  specifier_parts sc nm v sp ->
  includes (cu "=") (sc ++ nm ++ v ++ sp) = false ->
  getPackagesToInstallFromArgv [sc ++ nm ++ v ++ sp] =
  [{| toPackage := mkPackage (sc ++ nm ++ v) sc nm v sp;
      spec := sc ++ nm ++ v ++ sp;
      alias := nm |}].
Proof.
  intros Hparts Hinc. rewrite mapper_record, Hinc.
  by rewrite (parsePackageSpec_parts _ _ _ _ Hparts).
Qed.

(** X5. Wherever it stands in the arguments, a token without [=] that is
    a specifier of the grammar is mapped to the record of its parts with
    the bare name as alias: scope, version and subpath play no part in
    the default alias. *)
Theorem unaliased_token_record (sc nm v sp : jsstring) (before after : list jsstring) :
  specifier_parts sc nm v sp ->
  includes (cu "=") (sc ++ nm ++ v ++ sp) = false ->
  getPackagesToInstallFromArgv (before ++ (sc ++ nm ++ v ++ sp) :: after)
    !! List.length before =
  Some {| toPackage := mkPackage (sc ++ nm ++ v) sc nm v sp;
          spec := sc ++ nm ++ v ++ sp;
          alias := nm |}.
Proof.
  intros Hparts Hinc.
  induction before as [|b before IH]; cbn [app List.length]; rewrite mapper_cons.
  - by rewrite (mapper_unaliased _ _ _ _ Hparts Hinc).
  - rewrite mapper_record. exact IH.
Qed.

Lemma parts_decide (sc nm v sp : jsstring) :
  test packageSpecPattern (sc ++ nm ++ v ++ sp) = true ->
  parsePackageSpec (sc ++ nm ++ v ++ sp) = mkPackage (sc ++ nm ++ v) sc nm v sp ->
  specifier_parts sc nm v sp.
Proof.
  intros (sc' & nm' & v' & sp' & Hparts & Heq)%test_spec_iff Hparse.
  rewrite Heq, (parsePackageSpec_parts _ _ _ _ Hparts) in Hparse.
  by injection Hparse as _ -> -> -> ->.
Qed.

Lemma unaliased_token_record_witness :
  getPackagesToInstallFromArgv [js "m=moment"; js "@org/module@4.0.0/subpath"] !! 1%nat =
  Some {| toPackage := mkPackage (js "@org/module@4.0.0") (js "@org/") (js "module")
                         (js "@4.0.0") (js "/subpath");
          spec := js "@org/module@4.0.0/subpath";
          alias := js "module" |}.
Proof.
  apply (unaliased_token_record (js "@org/") (js "module") (js "@4.0.0") (js "/subpath")
           [js "m=moment"] []).
  - apply parts_decide; by vm_compute.
  - reflexivity.
Defined.

End MapperProperties.

(** ** The validator *)

Section ValidatorProperties.

Variable validateNpmPackageName : jsstring -> option (list jsstring).

Lemma mapper_app argv argv' :
  getPackagesToInstallFromArgv (argv ++ argv') =
  getPackagesToInstallFromArgv argv ++ getPackagesToInstallFromArgv argv'.
Proof. apply map_app. Qed.

Lemma not_NoDup_twice (a : jsstring) (l1 l2 l3 : list jsstring) :
  ~ NoDup (l1 ++ a :: l2 ++ a :: l3).
Proof.
  intros [_ [_ Hnd]]%NoDup_app. apply NoDup_cons in Hnd as [Hnin _].
  apply Hnin. rewrite elem_of_app. right. by left.
Qed.

(** X6. Two tokens without [=] that name the same package, whatever their
    scopes, versions and subpaths, make the whole batch fail validation:
    side by side versions need aliases. *)
Theorem same_name_needs_alias (sc nm v sp sc' v' sp' : jsstring)
    (before between after : list jsstring) (alreadyInstalled : list InstalledPackage) :
  specifier_parts sc nm v sp -> specifier_parts sc' nm v' sp' ->
  includes (cu "=") (sc ++ nm ++ v ++ sp) = false ->
  includes (cu "=") (sc' ++ nm ++ v' ++ sp') = false ->
  exists e,
    validatePackageNames validateNpmPackageName
      (getPackagesToInstallFromArgv
         (before ++ (sc ++ nm ++ v ++ sp) :: between ++ (sc' ++ nm ++ v' ++ sp') :: after))
      alreadyInstalled = Throws e.
Proof.
  intros Hparts Hparts' Hinc Hinc'. apply validatePackageNames_duplicate.
  unfold all_aliases.
  rewrite mapper_app, mapper_cons, mapper_app, (mapper_cons (sc' ++ _)).
  rewrite (mapper_unaliased _ _ _ _ Hparts Hinc),
          (mapper_unaliased _ _ _ _ Hparts' Hinc').
  rewrite !map_app. simpl. rewrite <- !app_assoc. simpl.
  rewrite <- (app_assoc (map alias (getPackagesToInstallFromArgv between))). simpl.
  apply not_NoDup_twice.
Qed.

Lemma forEach_first_throw {A} (f : A -> outcome unit) pre x post e :
  Forall (fun y => f y = Returns tt) pre -> f x = Throws e ->
  forEach f (pre ++ x :: post) = Throws e.
Proof.
  intros Hpre Hx. induction Hpre as [|y pre Hy _ IH]; simpl; [by rewrite Hx|].
  by rewrite Hy.
Qed.

(** X7. Validation fails fast, in the order of the batch: the first record
    that fails a check decides the error, its alias being checked before
    its package name, and both before the uniqueness of the aliases. *)
Theorem first_failing_record_decides (before after : list PackageToInstall)
    (pkg : PackageToInstall) (alreadyInstalled : list InstalledPackage) :
  Forall (record_ok validateNpmPackageName) before ->
  (isValidJsVariableName (alias pkg) = false ->
   validatePackageNames validateNpmPackageName (before ++ pkg :: after) alreadyInstalled =
   Throws (InvalidAlias (alias pkg))) /\
  (isValidJsVariableName (alias pkg) = true ->
   has_errors (validateNpmPackageName (scope pkg ++ name pkg)) = true ->
   validatePackageNames validateNpmPackageName (before ++ pkg :: after) alreadyInstalled =
   Throws (InvalidPackageName (scope pkg ++ name pkg))).
Proof.
  intros Hpre. unfold validatePackageNames. set (f := fun p : PackageToInstall => _).
  assert (Forall (fun y => f y = Returns tt) before) as Hpre'.
  { eapply Forall_impl; [exact Hpre|]. intros p [Hv Hn]. unfold f. by rewrite Hv, Hn. }
  split.
  - intros Hbad. rewrite (forEach_first_throw f before pkg after (InvalidAlias (alias pkg)));
      [done|done|]. unfold f. by rewrite Hbad.
  - intros Hgood Hname.
    rewrite (forEach_first_throw f before pkg after
               (InvalidPackageName (scope pkg ++ name pkg))); [done|done|].
    unfold f. by rewrite Hgood, Hname.
Qed.

End ValidatorProperties.

Lemma same_name_needs_alias_witness :
  exists e,
    validatePackageNames sample_validator
      (getPackagesToInstallFromArgv [js "moment"; js "lodash@3"; js "@types/lodash/fp"]) [] =
    Throws e.
Proof.
  apply (same_name_needs_alias sample_validator [] (js "lodash") (js "@3") []
           (js "@types/") [] (js "/fp") [js "moment"] [] [] []).
  - apply parts_decide; by vm_compute.
  - apply parts_decide; by vm_compute.
  - reflexivity.
  - reflexivity.
Defined.

Lemma first_failing_record_decides_witness :
  validatePackageNames sample_validator
    ([mkPackageToInstall (mkPackage (js "lodash") [] (js "lodash") [] []) (js "lodash")
        (js "lodash")] ++
     mkPackageToInstall (mkPackage (js "moment") [] (js "moment") [] []) (js "moment")
       (js "1x") ::
     [mkPackageToInstall (mkPackage (js "lodash") [] (js "lodash") [] []) (js "lodash")
        (js "lodash")]) [] =
  Throws (InvalidAlias (js "1x")).
Proof.
  apply first_failing_record_decides.
  - repeat constructor; by vm_compute.
  - by vm_compute.
Defined.

Section ValidatorComposition.

Variable validateNpmPackageName : jsstring -> option (list jsstring).

Lemma all_aliases_Permutation new new' (inst inst' : list InstalledPackage) :
  new ≡ₚ new' -> inst ≡ₚ inst' -> all_aliases new inst ≡ₚ all_aliases new' inst'.
Proof.
  intros Hnew Hinst. unfold all_aliases.
  apply Permutation_map, Permutation_app; [done|]. by apply Permutation_map.
Qed.

(** X8. Whether a batch passes validation depends neither on the order of
    its records nor on the order of the installed list. *)
Theorem validation_ignores_order (newPackages newPackages' : list PackageToInstall)
    (alreadyInstalled alreadyInstalled' : list InstalledPackage) :
  newPackages ≡ₚ newPackages' -> alreadyInstalled ≡ₚ alreadyInstalled' ->
  (validatePackageNames validateNpmPackageName newPackages alreadyInstalled = Returns tt <->
   validatePackageNames validateNpmPackageName newPackages' alreadyInstalled' = Returns tt).
Proof.
  intros Hnew Hinst. rewrite !validatePackageNames_returns.
  rewrite (all_aliases_Permutation _ _ _ _ Hnew Hinst).
  split; intros [Hall Hnd]; (split; [|done]).
  - eapply Permutation_Forall; [exact Hnew|done].
  - eapply Permutation_Forall; [symmetry; exact Hnew|done].
Qed.

(** X9. Validating one batch in two halves, the first half being installed
    before the second is checked, accepts exactly what validating it whole
    accepts. *)
Theorem validation_splits (first second : list PackageToInstall)
    (alreadyInstalled installedFirst : list InstalledPackage) :
  map toInstall installedFirst = first ->
  (validatePackageNames validateNpmPackageName (first ++ second) alreadyInstalled =
     Returns tt <->
   validatePackageNames validateNpmPackageName first alreadyInstalled = Returns tt /\
   validatePackageNames validateNpmPackageName second (alreadyInstalled ++ installedFirst) =
     Returns tt).
Proof.
  intros Hfirst. rewrite !validatePackageNames_returns, Forall_app.
  unfold all_aliases. rewrite !map_app, Hfirst.
  set (A := map alias first). set (B := map alias second).
  set (I := map alias (map toInstall alreadyInstalled)).
  assert (B ++ I ++ A ≡ₚ (A ++ B) ++ I) as Hperm.
  { rewrite <- app_assoc. rewrite (Permutation_app_comm A (B ++ I)).
    by rewrite <- app_assoc. }
  rewrite Hperm. split.
  - intros [[Ha Hb] Hnd]. split; [|done]. split; [done|].
    rewrite <- app_assoc in Hnd. apply NoDup_app in Hnd as (HA & Hdisj & HBI).
    apply NoDup_app in HBI as (_ & _ & HI). apply NoDup_app.
    split; [done|]. split; [|done].
    intros x Hx Hi. apply (Hdisj x Hx). rewrite elem_of_app. by right.
  - intros [[Ha _] [Hb Hnd]]. done.
Qed.

End ValidatorComposition.

Lemma validation_ignores_order_witness :
  validatePackageNames sample_validator
    (getPackagesToInstallFromArgv [js "lodash"; js "m=moment"]) [] = Returns tt <->
  validatePackageNames sample_validator
    (getPackagesToInstallFromArgv [js "m=moment"; js "lodash"]) [] = Returns tt.
Proof.
  apply validation_ignores_order; [|done].
  assert (getPackagesToInstallFromArgv [js "lodash"; js "m=moment"] =
          getPackagesToInstallFromArgv [js "lodash"] ++
          getPackagesToInstallFromArgv [js "m=moment"]) as -> by reflexivity.
  assert (getPackagesToInstallFromArgv [js "m=moment"; js "lodash"] =
          getPackagesToInstallFromArgv [js "m=moment"] ++
          getPackagesToInstallFromArgv [js "lodash"]) as -> by reflexivity.
  apply Permutation_app_comm.
Defined.

Lemma validation_splits_witness :
  validatePackageNames sample_validator
    (getPackagesToInstallFromArgv [js "lodash"] ++ getPackagesToInstallFromArgv [js "m=moment"])
    [] = Returns tt <->
  validatePackageNames sample_validator (getPackagesToInstallFromArgv [js "lodash"]) [] =
    Returns tt /\
  validatePackageNames sample_validator (getPackagesToInstallFromArgv [js "m=moment"])
    ([] ++ map (fun p => mkInstalledPackage p (js "uuid-") (js "/tmp/x"))
             (getPackagesToInstallFromArgv [js "lodash"])) = Returns tt.
Proof. apply validation_splits. reflexivity. Defined.

Section AliasProperties.

Variable validateNpmPackageName : jsstring -> option (list jsstring).

Lemma identifier_start_part c : identifier_start c -> identifier_part c.
Proof. by left. Qed.

(** X10. A string with a character outside letters, digits, [_] and [$]
    is never accepted as an alias; a hyphen or a dot is enough. *)
Theorem alias_characters (s : jsstring) (c : code_unit) :
  c ∈ s -> id_part c = false -> isValidJsVariableName s = false.
Proof.
  intros Hin Hc. apply not_true_is_false.
  intros [(a & t & -> & Ha & Ht) _]%isValidJsVariableName_iff.
  assert (identifier_part c) as Hpart.
  { apply elem_of_cons in Hin as [-> | Hin]; [by apply identifier_start_part|].
    rewrite Forall_forall in Ht. by apply Ht. }
  apply id_part_spec in Hpart. congruence.
Qed.

(** X11. A token without [=] whose package name has a character outside
    letters, digits, [_] and [$] fails validation with the invalid-alias
    error for that name: such a package needs an explicit alias. *)
Theorem unaliased_name_must_be_identifier (sc nm v sp : jsstring) (c : code_unit)
    (alreadyInstalled : list InstalledPackage) :
  specifier_parts sc nm v sp ->
  includes (cu "=") (sc ++ nm ++ v ++ sp) = false ->
  c ∈ nm -> id_part c = false ->
  validatePackageNames validateNpmPackageName
    (getPackagesToInstallFromArgv [sc ++ nm ++ v ++ sp]) alreadyInstalled =
  Throws (InvalidAlias nm).
Proof.
  intros Hparts Hinc Hin Hc. rewrite (mapper_unaliased _ _ _ _ Hparts Hinc).
  unfold validatePackageNames. simpl.
  assert (isValidJsVariableName nm = false) as ->; [|done].
  apply not_true_is_false.
  intros [(a & t & -> & Ha & Ht) _]%isValidJsVariableName_iff.
  assert (identifier_part c) as Hpart.
  { apply elem_of_cons in Hin as [-> | Hin]; [by apply identifier_start_part|].
    rewrite Forall_forall in Ht. by apply Ht. }
  apply id_part_spec in Hpart. congruence.
Qed.

End AliasProperties.

Lemma alias_characters_witness : isValidJsVariableName (js "pretty-bytes") = false.
Proof.
  apply (alias_characters (js "pretty-bytes") (cu "-")); [|reflexivity].
  vm_compute. do 6 right. left.
Defined.

Lemma unaliased_name_must_be_identifier_witness :
  validatePackageNames sample_validator
    (getPackagesToInstallFromArgv [js "socket.io@4"]) [] =
  Throws (InvalidAlias (js "socket.io")).
Proof.
  apply (unaliased_name_must_be_identifier sample_validator [] (js "socket.io") (js "@4") []
           (cu ".") []).
  - apply parts_decide; by vm_compute.
  - reflexivity.
  - vm_compute. do 6 right. left.
  - reflexivity.
Defined.

(** ** The installer *)

Section InstallerProperties.

Variable host : Host.

Lemma installPackage_exact (pkg : PackageToInstall) path st :
  let u := randomUUID host (trace st) in
  let ok := execAsync host (trace st ++ [EvRandomUUID u]) (npm_command u (install pkg) path) in
  installPackage host pkg path st =
  (if ok then Returns (installation_record host path (pkg, u, ok))
   else Throws (InstallFailed (install pkg)),
   mkState (trace st ++ installation_events path (pkg, u, ok))
     (installedPackages st) (context st)).
Proof.
  unfold installPackage, bind, get_trace, emit, npm_command, installation_events,
    installation_record. simpl. rewrite <- app_assoc. simpl.
  by destruct (execAsync host _ _).
Qed.

(** X12. A batch installation draws an identifier and runs
    [npm install -g <uuid>@npm:<install> --prefix <installPath>] once for
    every package, in the order of the batch and also after an earlier
    run has failed; it leaves the installed list and the context alone,
    returns the records of all the packages when every run succeeded and
    throws otherwise. *)
Theorem installPackages_runs_every_package (pkgs : list PackageToInstall)
    (path : jsstring) (st : state) :
  exists (runs : list installation) (r : outcome (list InstalledPackage)),
    map installation_package runs = pkgs /\
    installPackages host pkgs path st =
      (r, mkState (trace st ++ List.concat (map (installation_events path) runs))
            (installedPackages st) (context st)) /\
    (forallb installation_ok runs = true ->
     r = Returns (map (installation_record host path) runs)) /\
    (forallb installation_ok runs = false -> exists e, r = Throws e).
Proof.
  unfold installPackages. revert st.
  induction pkgs as [|pkg pkgs IH]; intros st; simpl.
  - exists [], (Returns []). simpl. rewrite app_nil_r. destruct st. done.
  - rewrite installPackage_exact.
    set (u := randomUUID host (trace st)).
    set (ok := execAsync host _ _).
    set (st1 := mkState _ _ _).
    destruct (IH st1) as (runs & rs & Hmap & -> & Hall & Hsome).
    exists ((pkg, u, ok) :: runs). eexists. split; [by rewrite <- Hmap|].
    split.
    { simpl. unfold st1. simpl. rewrite <- !app_assoc. reflexivity. }
    cbn [forallb map]. change (installation_ok (pkg, u, ok)) with ok.
    destruct ok; simpl; split.
    + intros Hrest. by rewrite (Hall Hrest).
    + intros Hrest. destruct (Hsome Hrest) as [e ->]. by eauto.
    + done.
    + intros _. by eauto.
Qed.

End InstallerProperties.

(** ** The importer *)

Section ImporterProperties.

Variable host : Host.

Lemma importPackageIntoContext_cases p st :
  (exists url pkg,
     importPackageIntoContext host p st =
     (Returns tt,
      mkState (trace st ++ [EvImport (Some url) (Some pkg)]) (installedPackages st)
        (<[alias p := bound_value pkg]> (context st)))) \/
  (exists url,
     importPackageIntoContext host p st =
     (Throws (ImportFailed (uuid p ++ subpath p)),
      mkState (trace st ++ [EvImport url None]) (installedPackages st) (context st))).
Proof.
  unfold importPackageIntoContext, bind, get_trace, emit, set_context, throw.
  cbn beta iota.
  destruct (importMetaResolve host _ _ _) as [url|]; [|right; by eexists].
  destruct (dynamicImport host _ url) as [pkg|]; [left|right]; by eauto.
Qed.

(** X13. When [importPackagesIntoContext] returns, it has loaded one
    module per package, in list order, and bound each alias to the value
    the binding rule gives for its module, a later package of the same
    alias replacing an earlier one; the installed list is untouched. *)
Theorem import_binds_in_order (pkgs : list InstalledPackage) (st st' : state) :
  importPackagesIntoContext host pkgs st = (Returns tt, st') ->
  exists loads : list (jsstring * namespace),
    List.length loads = List.length pkgs /\
    st' = mkState (trace st ++ map load_event loads) (installedPackages st)
            (bind_all (context st) pkgs loads).
Proof.
  revert st. induction pkgs as [|p pkgs IH]; intros st; simpl.
  - intros [= <-]. exists []. simpl. rewrite app_nil_r. by destruct st.
  - unfold bind.
    destruct (importPackageIntoContext_cases p st)
      as [(url & pkg & ->) | (url & ->)]; [|done].
    intros (loads & Hlen & ->)%IH. exists ((url, pkg) :: loads). simpl.
    split; [by rewrite Hlen|]. by rewrite <- app_assoc.
Qed.

(** X14. When [importPackagesIntoContext] throws, it has stopped at the
    first module that failed to load: the packages before it are bound,
    the failing one and those after it are not touched, and the trace
    ends with the failed load. *)
Theorem import_stops_at_first_failure (pkgs : list InstalledPackage) (st st' : state)
    (e : error) :
  importPackagesIntoContext host pkgs st = (Throws e, st') ->
  exists (done_ rest : list InstalledPackage) (failed : InstalledPackage)
         (loads : list (jsstring * namespace)) (url : option jsstring),
    pkgs = done_ ++ failed :: rest /\
    List.length loads = List.length done_ /\
    e = ImportFailed (uuid failed ++ subpath failed) /\
    st' = mkState (trace st ++ map load_event loads ++ [EvImport url None])
            (installedPackages st) (bind_all (context st) done_ loads).
Proof.
  revert st. induction pkgs as [|p pkgs IH]; intros st; simpl; [done|].
  unfold bind.
  destruct (importPackageIntoContext_cases p st) as [(url & pkg & ->) | (url & ->)].
  - intros (done_ & rest & failed & loads & url' & -> & Hlen & -> & ->)%IH.
    exists (p :: done_), rest, failed, ((url, pkg) :: loads), url'. simpl.
    split; [done|]. split; [by rewrite Hlen|]. split; [done|].
    by rewrite <- app_assoc.
  - intros [= <- <-]. exists [], pkgs, p, [], url. done.
Qed.

Lemma bind_all_lookup_other ctx pkgs loads k :
  k ∉ aliases_of pkgs -> bind_all ctx pkgs loads !! k = ctx !! k.
Proof.
  unfold bind_all, aliases_of. revert ctx loads.
  induction pkgs as [|p pkgs IH]; intros ctx [|l loads]; simpl; try done.
  intros Hk. apply not_elem_of_cons in Hk as [Hne Hk].
  rewrite (IH _ _ Hk). by rewrite lookup_insert_ne.
Qed.

Lemma bind_all_dom ctx pkgs loads :
  dom ctx ⊆ dom (bind_all ctx pkgs loads).
Proof.
  unfold bind_all. revert ctx loads.
  induction pkgs as [|p pkgs IH]; intros ctx [|l loads]; simpl; try done.
  etrans; [|apply IH]. rewrite dom_insert. set_solver.
Qed.

Lemma bind_all_dom_full ctx pkgs loads :
  List.length loads = List.length pkgs ->
  dom (bind_all ctx pkgs loads) = dom ctx ∪ list_to_set (aliases_of pkgs).
Proof.
  unfold bind_all, aliases_of. revert ctx loads.
  induction pkgs as [|p pkgs IH]; intros ctx [|l loads]; simpl; try done.
  - intros _. set_solver.
  - intros [= Hlen]. rewrite (IH _ _ Hlen), dom_insert_L. set_solver.
Qed.

Lemma import_run_shape (pkgs : list InstalledPackage) (st : state) :
  exists (done_ : list InstalledPackage) (loads : list (jsstring * namespace))
         (evs : list event) (r : outcome unit),
    importPackagesIntoContext host pkgs st =
      (r, mkState (trace st ++ evs) (installedPackages st)
            (bind_all (context st) done_ loads)) /\
    Forall (fun ev => is_import_event ev = true) evs /\
    (exists rest, pkgs = done_ ++ rest) /\
    List.length loads = List.length done_ /\
    (r = Returns tt -> done_ = pkgs /\ evs = map load_event loads).
Proof.
  revert st. induction pkgs as [|p pkgs IH]; intros st; simpl.
  - exists [], [], [], (Returns tt). simpl. rewrite app_nil_r. destruct st.
    split; [done|]. split; [done|]. split; [by exists []|]. done.
  - unfold bind.
    destruct (importPackageIntoContext_cases p st) as [(url & pkg & ->) | (url & ->)].
    + destruct (IH (mkState (trace st ++ [EvImport (Some url) (Some pkg)])
                     (installedPackages st) (<[alias p := bound_value pkg]> (context st))))
        as (done_ & loads & evs & r & -> & Hevs & [rest ->] & Hlen & Hall).
      exists (p :: done_), ((url, pkg) :: loads), (EvImport (Some url) (Some pkg) :: evs), r.
      simpl. rewrite <- app_assoc. split; [done|]. split; [by constructor|].
      split; [by exists rest|]. split; [by rewrite Hlen|].
      intros Hr. destruct (Hall Hr) as [Hd ->]. split; [|done]. f_equal. exact Hd.
    + exists [], [], [EvImport url None], (Throws (ImportFailed (uuid p ++ subpath p))).
      simpl. split; [done|]. split; [by repeat constructor|].
      split; [by exists (p :: pkgs)|]. done.
Qed.

(** X15. Whether it returns or throws, [importPackagesIntoContext] never
    removes a binding, never changes a binding whose name is not an alias
    of the list, and adds nothing but load events to the trace. *)
Theorem import_touches_only_aliases (pkgs : list InstalledPackage) (st : state) :
  let st' := (importPackagesIntoContext host pkgs st).2 in
  installedPackages st' = installedPackages st /\
  dom (context st) ⊆ dom (context st') /\
  (forall k, k ∉ aliases_of pkgs -> context st' !! k = context st !! k) /\
  exists evs, trace st' = trace st ++ evs /\
    Forall (fun ev => is_import_event ev = true) evs.
Proof.
  destruct (import_run_shape pkgs st)
    as (done_ & loads & evs & r & -> & Hevs & [rest ->] & Hlen & _).
  simpl. split; [done|]. split; [apply bind_all_dom|]. split; [|by exists evs].
  intros k Hk. apply bind_all_lookup_other.
  intros Hin. apply Hk. unfold aliases_of in *. rewrite map_app, elem_of_app. by left.
Qed.

(** X16. Whatever [importPackageIntoContext] binds that is not the whole
    module object is the truthy value of a default export that is the
    only export of the module. *)
Theorem bound_value_cases (pkg : namespace) :
  bound_value pkg = VNamespace pkg \/
  exists v, pkg = [(js "default", v)] /\ truthy v = true /\ bound_value pkg = v.
Proof.
  unfold bound_value.
  destruct pkg as [|[k v] [|kv rest]]; simpl; [by left| |by left].
  case_bool_decide as Hk; simpl; [|by left].
  destruct (truthy v) eqn:Hv; [|by left].
  right. exists v. by rewrite Hk.
Qed.

End ImporterProperties.

Lemma import_binds_in_order_witness :
  exists loads : list (jsstring * namespace),
    List.length loads = 2%nat /\
    (importPackagesIntoContext sample_host
       [installed_as (js "a"); installed_as (js "b")] initial_state).2 =
    mkState (map load_event loads) []
      (bind_all ∅ [installed_as (js "a"); installed_as (js "b")] loads).
Proof.
  assert (importPackagesIntoContext sample_host
            [installed_as (js "a"); installed_as (js "b")] initial_state =
          (Returns tt,
           (importPackagesIntoContext sample_host
              [installed_as (js "a"); installed_as (js "b")] initial_state).2)) as H
    by (by vm_compute).
  exact (import_binds_in_order sample_host _ _ _ H).
Defined.

Lemma import_stops_at_first_failure_witness :
  exists (done_ rest : list InstalledPackage) (failed : InstalledPackage)
         (loads : list (jsstring * namespace)) (url : option jsstring),
    [installed_as (js "a"); installed_as (js "b"); installed_as (js "c")] =
      done_ ++ failed :: rest /\
    List.length loads = List.length done_ /\
    ImportFailed (js "uuid-") = ImportFailed (uuid failed ++ subpath failed) /\
    (importPackagesIntoContext host_loading_once
       [installed_as (js "a"); installed_as (js "b"); installed_as (js "c")]
       initial_state).2 =
    mkState (trace initial_state ++ map load_event loads ++ [EvImport url None])
      (installedPackages initial_state) (bind_all (context initial_state) done_ loads).
Proof.
  assert (importPackagesIntoContext host_loading_once
            [installed_as (js "a"); installed_as (js "b"); installed_as (js "c")]
            initial_state =
          (Throws (ImportFailed (js "uuid-")),
           (importPackagesIntoContext host_loading_once
              [installed_as (js "a"); installed_as (js "b"); installed_as (js "c")]
              initial_state).2)) as H
    by (by vm_compute).
  exact (import_stops_at_first_failure host_loading_once _ _ _ _ H).
Defined.

(** ** Startup and the session handlers *)

Section SessionProperties.

Variable host : Host.

Lemma import_handler_exact args path st :
  importAdditionalPackagesViaCommand host args path st =
  (Returns tt,
   match validatePackageNames (validateNpmPackageName host)
           (getPackagesToInstallFromArgv (stringArgv host args)) (installedPackages st) with
   | Throws _ => st
   | Returns _ =>
       match installPackages host (getPackagesToInstallFromArgv (stringArgv host args))
               path st with
       | (Throws _, st1) => st1
       | (Returns newly, st1) =>
           (importPackagesIntoContext host newly
              (mkState (trace st1) (installedPackages st1 ++ newly) (context st1))).2
       end
   end).
Proof.
  unfold importAdditionalPackagesViaCommand, try_catch, bind, lift, get_installed,
    set_installed, ret. cbn beta iota.
  destruct (validatePackageNames _ _ _) as [[]|e]; [|done].
  destruct (installPackages host _ path st) as [[newly|e] st1]; [|done].
  cbn beta iota.
  by destruct (importPackagesIntoContext host newly _) as [[[]|e] st2].
Qed.

Lemma installPackages_no_rm pkgs path st :
  exists r evs,
    installPackages host pkgs path st =
      (r, mkState (trace st ++ evs) (installedPackages st) (context st)) /\
    Forall (fun ev => is_rm_event ev = false) evs.
Proof.
  unfold installPackages. revert st.
  induction pkgs as [|pkg pkgs IH]; intros st; simpl.
  - exists (Returns []), []. rewrite app_nil_r. by destruct st.
  - destruct (installPackage_run host pkg path st) as (u & cmd & ok & ->).
    destruct (IH (mkState (trace st ++ [EvRandomUUID u; EvExec cmd ok])
                    (installedPackages st) (context st))) as (rs & evs & -> & Hevs).
    simpl. eexists _, ([EvRandomUUID u; EvExec cmd ok] ++ evs).
    rewrite <- app_assoc. split; [reflexivity|]. by repeat constructor.
Qed.

Lemma no_rm_filter evs :
  Forall (fun ev => is_rm_event ev = false) evs -> List.filter is_rm_event evs = [].
Proof.
  induction 1 as [|ev evs Hev _ IH]; simpl; [done|]. by rewrite Hev.
Qed.

Lemma import_event_not_rm evs :
  Forall (fun ev => is_import_event ev = true) evs ->
  Forall (fun ev => is_rm_event ev = false) evs.
Proof. intros H. eapply Forall_impl; [exact H|]. by intros []. Qed.

(** X17. Started without package arguments, [main] brings up a session
    with an empty installed list, [r] as the only binding and no run of
    the package manager; the install root is created all the same. *)
Theorem main_without_packages (process_argv : list jsstring) (st : state) (dir : jsstring) :
  (List.length process_argv <= 2)%nat ->
  mkdtemp host (trace st) (join host [tmpdir host; js "repl-with-"]) = Some dir ->
  main host process_argv st =
  (Returns dir,
   mkState (trace st ++ [EvMkdtemp (join host [tmpdir host; js "repl-with-"]) (Some dir)])
     [] (<[js "r" := VObject 0]> ∅)).
Proof.
  intros Hlen Hdir. unfold main, bind at 1.
  unfold createInstallationDirectory, bind, get_trace, emit. cbn beta iota.
  rewrite Hdir, (drop_ge process_argv 2 Hlen).
  unfold ret, try_catch, bind, lift, repl_start, setupReplServer, bind, set_installed,
    set_context. simpl.
  by assert (validatePackageNames (validateNpmPackageName host) [] [] = Returns tt) as ->
    by (by vm_compute).
Qed.

(** X18. [main] issues the removal of the install root exactly when it
    created one and then failed, and then once: after a failed [mkdtemp]
    it throws with nothing else done; after a successful one the effects
    of a run that returns that directory hold no removal, and those of a
    run that throws hold one removal, of that directory.  Where the
    removal stands among the other effects is not stated. *)
Theorem main_removes_root_on_failure (process_argv : list jsstring) (st : state) :
  let path := join host [tmpdir host; js "repl-with-"] in
  match mkdtemp host (trace st) path with
  | None =>
      main host process_argv st =
      (Throws (CreateDirectoryFailed path),
       mkState (trace st ++ [EvMkdtemp path None]) (installedPackages st) (context st))
  | Some dir =>
      exists evs,
        trace (main host process_argv st).2 = trace st ++ EvMkdtemp path (Some dir) :: evs /\
        match (main host process_argv st).1 with
        | Returns root => root = dir /\ List.filter is_rm_event evs = []
        | Throws _ => List.filter is_rm_event evs = [EvRm dir]
        end
  end.
Proof.
  cbv zeta. unfold main, bind at 1 3 5.
  unfold createInstallationDirectory, bind, get_trace, emit. cbn beta iota.
  destruct (mkdtemp host (trace st) _) as [dir|]; [|done].
  unfold ret, try_catch, bind, lift, cleanup, emit, throw, repl_start, setupReplServer,
    bind, set_installed, set_context. cbn beta iota.
  destruct (validatePackageNames _ _ []) as [[]|e].
  - set (st0 := mkState _ _ _).
    destruct (installPackages_no_rm (getPackagesToInstallFromArgv (drop 2 process_argv))
                dir st0) as (r & evs & -> & Hevs%no_rm_filter).
    destruct r as [installed|e]; cbn.
    + match goal with
      | |- context [importPackagesIntoContext host installed ?s] =>
          destruct (import_run_shape host installed s)
            as (done_ & loads & evs' & r & -> & Hevs'%import_event_not_rm%no_rm_filter & _)
      end.
      destruct r as [[]|e]; simpl.
      * exists (evs ++ evs'). rewrite <- !app_assoc. split; [done|]. split; [done|].
        by rewrite List.filter_app, Hevs, Hevs'.
      * exists (evs ++ evs' ++ [EvRm dir]). rewrite <- !app_assoc. split; [done|].
        by rewrite !List.filter_app, Hevs, Hevs'.
    + exists (evs ++ [EvRm dir]). rewrite <- !app_assoc. split; [done|].
      by rewrite List.filter_app, Hevs.
  - cbn. exists [EvRm dir]. rewrite <- app_assoc. by split.
Qed.


Lemma handle_appends path c st :
  exists added,
    installedPackages (handle host path c st).2 = installedPackages st ++ added.
Proof.
  destruct c as [|args| |]; simpl.
  - exists []. by rewrite app_nil_r.
  - rewrite import_handler_exact. simpl.
    destruct (validatePackageNames _ _ _) as [[]|e]; [|exists []; by rewrite app_nil_r].
    destruct (installPackages_no_rm
                (getPackagesToInstallFromArgv (stringArgv host args)) path st)
      as (r & evs & -> & _).
    destruct r as [newly|e]; [|exists []; by rewrite app_nil_r].
    exists newly. by rewrite importPackagesIntoContext_installed.
  - exists []. by rewrite app_nil_r.
  - unfold bind, set_context, get_installed. cbn beta iota.
    exists []. by rewrite importPackagesIntoContext_installed, app_nil_r.
Qed.

(** X20. The installed list only grows at its end: whatever commands and
    resets a session goes through, the list it started with is still
    there, in the same order, as a prefix of the list it ends with. *)
Theorem installed_list_is_append_only (path : jsstring) (cmds : list command) (st : state) :
  exists added,
    installedPackages (run_commands host path cmds st).2 = installedPackages st ++ added.
Proof.
  revert st. induction cmds as [|c cmds IH]; intros st; simpl.
  - exists []. by rewrite app_nil_r.
  - unfold bind. destruct (handle_appends path c st) as [added1 H1].
    destruct (handle host path c st) as [[[]|e] st1]; simpl in *.
    + destruct (IH st1) as [added2 ->]. exists (added1 ++ added2).
      by rewrite H1, app_assoc.
    + by exists added1.
Qed.

(** X21. An [.import] with no token changes nothing: no run of the package
    manager, no binding, the same list. *)
Theorem empty_import_changes_nothing (args path : jsstring) (st : state) :
  stringArgv host args = [] ->
  importAdditionalPackagesViaCommand host args path st = (Returns tt, st).
Proof.
  intros Hargs. rewrite import_handler_exact, Hargs. simpl.
  destruct (validatePackageNames _ [] _) as [[]|e]; [|done].
  unfold installPackages. simpl. rewrite app_nil_r. by destruct st.
Qed.

(** X22. After an [.import] that extended the list, the same [.import]
    again is refused by validation and leaves the state exactly as it
    is: nothing is installed twice under one alias. *)
Theorem repeated_import_is_refused (args path : jsstring) (st st1 : state) :
  importAdditionalPackagesViaCommand host args path st = (Returns tt, st1) ->
  installedPackages st1 <> installedPackages st ->
  importAdditionalPackagesViaCommand host args path st1 = (Returns tt, st1).
Proof.
  intros Hrun Hchanged.
  destruct (importAdditionalPackagesViaCommand_run host args path st) as (st2 & E & Hres).
  rewrite E in Hrun. injection Hrun as ->.
  destruct Hres as [e Hval -> | e evs Hval _ -> | newly st2 Hval _ Hmap Hlist]; [done|done|].
  assert (newly <> []) as Hne.
  { intros ->. rewrite app_nil_r in Hlist. done. }
  destruct (validatePackageNames_duplicate (validateNpmPackageName host)
              (getPackagesToInstallFromArgv (stringArgv host args)) (installedPackages st1))
    as [e He].
  { unfold all_aliases. rewrite Hlist, <- Hmap, !map_app.
    destruct newly as [|p newly]; [done|]. simpl.
    intros Hnd. apply NoDup_cons in Hnd as [Hnin _]. apply Hnin.
    rewrite !elem_of_app. right. right. by left. }
  rewrite import_handler_exact. by rewrite He.
Qed.

(** X23. A reset that returns leaves exactly the aliases of the installed
    packages bound, each package loaded again in list order; the binding
    of [r] made at startup is not made again. *)
Theorem reset_rebinds_installed (path : jsstring) (st st' : state) :
  handle host path OnReset st = (Returns tt, st') ->
  installedPackages st' = installedPackages st /\
  dom (context st') = list_to_set (aliases_of (installedPackages st)) /\
  exists loads : list (jsstring * namespace),
    List.length loads = List.length (installedPackages st) /\
    trace st' = trace st ++ map load_event loads.
Proof.
  simpl. unfold bind, set_context, get_installed. cbn beta iota. simpl. intros Hrun.
  destruct (import_run_shape host (installedPackages st)
              (mkState (trace st) (installedPackages st) ∅))
    as (done_ & loads & evs & r & E & _ & _ & Hlen & Hall).
  rewrite E in Hrun. injection Hrun as -> <-.
  destruct (Hall eq_refl) as [-> ->].
  simpl. split; [done|]. split; [|by exists loads].
  rewrite (bind_all_dom_full _ _ _ Hlen). set_solver.
Qed.

End SessionProperties.

Section SessionOutcomes.

Variable host : Host.

(** X24. Once the installations of an [.import] batch have all
    succeeded, the batch is appended to the installed list whether or not
    its modules then load: a package whose load failed is listed
    although its alias is not bound. *)
Theorem installed_batch_is_listed (args path : jsstring) (st st1 : state)
    (newly : list InstalledPackage) :
  validatePackageNames (validateNpmPackageName host)
    (getPackagesToInstallFromArgv (stringArgv host args)) (installedPackages st) = Returns tt ->
  installPackages host (getPackagesToInstallFromArgv (stringArgv host args)) path st =
    (Returns newly, st1) ->
  installedPackages (importAdditionalPackagesViaCommand host args path st).2 =
  installedPackages st ++ newly.
Proof.
  intros Hval Hinst. rewrite import_handler_exact, Hval, Hinst. simpl.
  rewrite importPackagesIntoContext_installed. simpl. f_equal.
  destruct (installPackages_no_rm host
              (getPackagesToInstallFromArgv (stringArgv host args)) path st)
    as (r & evs & E & _).
  rewrite E in Hinst. by injection Hinst as _ <-.
Qed.

(** X25. When [main] returns, its result is the directory that was
    created, and the context binds [r] and the aliases of the installed
    packages and nothing else. *)
Theorem main_binds_r_and_aliases (process_argv : list jsstring) (st st1 : state)
    (root : jsstring) :
  main host process_argv st = (Returns root, st1) ->
  mkdtemp host (trace st) (join host [tmpdir host; js "repl-with-"]) = Some root /\
  dom (context st1) = {[js "r"]} ∪ list_to_set (aliases_of (installedPackages st1)).
Proof.
  unfold main, bind at 1.
  unfold createInstallationDirectory, bind, get_trace, emit. cbn beta iota.
  destruct (mkdtemp host (trace st) _) as [dir|]; [|done].
  unfold ret, try_catch, bind, lift, cleanup, emit, throw, repl_start, setupReplServer,
    bind, set_installed, set_context. cbn beta iota.
  destruct (validatePackageNames _ _ []) as [[]|e]; [|done].
  set (st0 := mkState _ _ _).
  destruct (installPackages_no_rm host (getPackagesToInstallFromArgv (drop 2 process_argv))
              dir st0) as (r & evs & -> & _).
  destruct r as [installed|e]; [|done]. cbn.
  match goal with
  | |- context [importPackagesIntoContext host installed ?s] =>
      destruct (import_run_shape host installed s)
        as (done_ & loads & evs' & r & -> & _ & _ & Hlen & Hall)
  end.
  destruct r as [[]|e]; [|done]. intros [= <- <-].
  destruct (Hall eq_refl) as [-> _]. simpl. split; [done|].
  rewrite (bind_all_dom_full _ _ _ Hlen), dom_insert_L, dom_empty_L. set_solver.
Qed.

(** X26. An [.import] that leaves the installed list as it was also
    leaves every binding of the context as it was. *)
Theorem unchanged_list_unchanged_context (args path : jsstring) (st : state) :
  installedPackages (importAdditionalPackagesViaCommand host args path st).2 =
    installedPackages st ->
  context (importAdditionalPackagesViaCommand host args path st).2 = context st.
Proof.
  rewrite import_handler_exact. simpl.
  destruct (validatePackageNames _ _ _) as [[]|e]; [|done].
  destruct (installPackages_no_rm host
              (getPackagesToInstallFromArgv (stringArgv host args)) path st)
    as (r & evs & -> & _).
  destruct r as [newly|e]; [|done]. simpl.
  rewrite importPackagesIntoContext_installed. simpl.
  intros Hsame. assert (newly = []) as ->.
  { apply (app_inv_head (installedPackages st)). by rewrite app_nil_r. }
  done.
Qed.

Lemma handle_no_rm path c st :
  exists evs, trace (handle host path c st).2 = trace st ++ evs /\
    Forall (fun ev => is_rm_event ev = false) evs.
Proof.
  destruct c as [|args| |]; simpl.
  - exists []. by rewrite app_nil_r.
  - rewrite import_handler_exact. simpl.
    destruct (validatePackageNames _ _ _) as [[]|e]; [|exists []; by rewrite app_nil_r].
    destruct (installPackages_no_rm host
                (getPackagesToInstallFromArgv (stringArgv host args)) path st)
      as (r & evs & -> & Hevs).
    destruct r as [newly|e]; [|by exists evs]. simpl.
    match goal with
    | |- context [importPackagesIntoContext host newly ?s] =>
        destruct (import_run_shape host newly s)
          as (done_ & loads & evs' & r & -> & Hevs'%import_event_not_rm & _)
    end.
    simpl. exists (evs ++ evs'). rewrite app_assoc. split; [done|]. by apply Forall_app.
  - exists []. by rewrite app_nil_r.
  - unfold bind, set_context, get_installed. cbn beta iota. simpl.
    match goal with
    | |- context [importPackagesIntoContext host ?l ?s] =>
        destruct (import_run_shape host l s)
          as (done_ & loads & evs' & r & -> & Hevs'%import_event_not_rm & _)
    end.
    simpl. by exists evs'.
Qed.

(** X27. No command and no reset removes the install root: in the trace
    of a running session there is no removal, which is left to the exit
    handler and to the failure path of [main]. *)
Theorem session_keeps_install_root (path : jsstring) (cmds : list command) (st : state) :
  exists evs, trace (run_commands host path cmds st).2 = trace st ++ evs /\
    Forall (fun ev => is_rm_event ev = false) evs.
Proof.
  revert st. induction cmds as [|c cmds IH]; intros st; simpl.
  - exists []. by rewrite app_nil_r.
  - unfold bind. destruct (handle_no_rm path c st) as (evs1 & H1 & Hevs1).
    destruct (handle host path c st) as [[[]|e] st1]; simpl in *.
    + destruct (IH st1) as (evs2 & -> & Hevs2). exists (evs1 ++ evs2).
      rewrite H1, app_assoc. split; [done|]. by apply Forall_app.
    + by exists evs1.
Qed.

End SessionOutcomes.

Lemma main_without_packages_witness :
  main sample_host [js "node"; js "repl-with"] initial_state =
  (Returns (js "/tmp/repl-with-XXXXXX"),
   mkState [EvMkdtemp (js "/tmp/repl-with-") (Some (js "/tmp/repl-with-XXXXXX"))]
     [] (<[js "r" := VObject 0]> ∅)).
Proof.
  apply (main_without_packages sample_host [js "node"; js "repl-with"] initial_state).
  - simpl. lia.
  - reflexivity.
Defined.


Lemma empty_import_changes_nothing_witness :
  importAdditionalPackagesViaCommand sample_host (js "  ") (js "/tmp/repl-with-XXXXXX")
    initial_state = (Returns tt, initial_state).
Proof. apply empty_import_changes_nothing. reflexivity. Defined.

Lemma repeated_import_is_refused_witness :
  let st1 := (importAdditionalPackagesViaCommand sample_host (js "lodash m=moment")
                (js "/tmp/repl-with-XXXXXX") initial_state).2 in
  importAdditionalPackagesViaCommand sample_host (js "lodash m=moment")
    (js "/tmp/repl-with-XXXXXX") st1 = (Returns tt, st1).
Proof.
  cbv zeta. apply (repeated_import_is_refused sample_host _ _ initial_state).
  - by vm_compute.
  - by vm_compute.
Defined.

Lemma reset_rebinds_installed_witness :
  let st := (main sample_host [js "node"; js "repl-with"; js "lodash"]
               initial_state).2 in
  let st' := (handle sample_host (js "/tmp/repl-with-XXXXXX") OnReset st).2 in
  installedPackages st' = installedPackages st /\
  dom (context st') = list_to_set (aliases_of (installedPackages st)) /\
  exists loads : list (jsstring * namespace),
    List.length loads = List.length (installedPackages st) /\
    trace st' = trace st ++ map load_event loads.
Proof.
  cbv zeta. apply (reset_rebinds_installed sample_host (js "/tmp/repl-with-XXXXXX")).
  by vm_compute.
Defined.

Lemma installed_batch_is_listed_witness :
  exists newly : list InstalledPackage,
    aliases_of newly = [js "a"; js "b"] /\
    installedPackages
      (importAdditionalPackagesViaCommand host_loading_once (js "a b")
         (js "/tmp/repl-with-XXXXXX") initial_state).2 = [] ++ newly.
Proof.
  assert (exists newly st1,
    installPackages host_loading_once
      (getPackagesToInstallFromArgv (stringArgv host_loading_once (js "a b")))
      (js "/tmp/repl-with-XXXXXX") initial_state = (Returns newly, st1) /\
    aliases_of newly = [js "a"; js "b"]) as (newly & st1 & Hinst & Hal)
    by (eexists _, _; split; vm_compute; reflexivity).
  exists newly. split; [done|].
  apply (installed_batch_is_listed host_loading_once _ _ initial_state st1); [|done].
  by vm_compute.
Defined.

Lemma main_binds_r_and_aliases_witness :
  let st1 := (main sample_host [js "node"; js "repl-with"; js "lodash"; js "m=moment"]
                initial_state).2 in
  mkdtemp sample_host [] (join sample_host [tmpdir sample_host; js "repl-with-"]) =
    Some (js "/tmp/repl-with-XXXXXX") /\
  dom (context st1) = {[js "r"]} ∪ list_to_set (aliases_of (installedPackages st1)).
Proof.
  cbv zeta.
  apply (main_binds_r_and_aliases sample_host
           [js "node"; js "repl-with"; js "lodash"; js "m=moment"] initial_state).
  by vm_compute.
Defined.

Lemma unchanged_list_unchanged_context_witness :
  context (importAdditionalPackagesViaCommand sample_host (js "x=bad!")
             (js "/tmp/repl-with-XXXXXX") initial_state).2 = ∅.
Proof.
  apply (unchanged_list_unchanged_context sample_host (js "x=bad!")
           (js "/tmp/repl-with-XXXXXX") initial_state).
  by vm_compute.
Defined.

(** ** The listing *)

Section ListingProperties.

Lemma valid_alias_all_parts (a : jsstring) :
  isValidJsVariableName a = true -> all_in id_part a.
Proof.
  intros [(c & t & -> & Hc & Ht) _]%isValidJsVariableName_iff.
  constructor.
  - apply id_part_spec. by left.
  - eapply Forall_impl; [exact Ht|]. intros x Hx. by apply id_part_spec.
Qed.

Lemma package_line_inj (p q : InstalledPackage) :
  isValidJsVariableName (alias p) = true -> isValidJsVariableName (alias q) = true ->
  package_line p = package_line q -> alias p = alias q /\ install p = install q.
Proof.
  intros Hp%valid_alias_all_parts Hq%valid_alias_all_parts Heq.
  unfold package_line in Heq. apply app_inv_head in Heq.
  destruct (span_unique id_part (alias p) (alias q) (js " = " ++ install p)
              (js " = " ++ install q) Hp Hq eq_refl eq_refl Heq) as [Ha Hi].
  split; [done|]. by apply app_inv_head in Hi.
Qed.

(** X28. The listing has one line per installed package, in list order,
    between a blank line with a heading and a closing blank line; when the
    aliases are valid identifiers, the line of a package tells its alias
    and its install string apart from those of every other package, so
    distinct aliases give distinct lines. *)
Theorem listing_identifies_packages (packages : list InstalledPackage) :
  Forall (fun p : InstalledPackage => isValidJsVariableName (alias p) = true) packages ->
  List.length (listPackages packages) = (List.length packages + 3)%nat /\
  (forall i p, packages !! i = Some p -> listPackages packages !! (i + 2)%nat = Some (package_line p)) /\
  (forall p q, p ∈ packages -> q ∈ packages -> package_line p = package_line q ->
     alias p = alias q /\ install p = install q) /\
  (NoDup (aliases_of packages) -> NoDup (map package_line packages)).
Proof.
  intros Hvalid. rewrite Forall_forall in Hvalid. split; [|split; [|split]].
  - unfold listPackages. rewrite !length_app, length_map. simpl. lia.
  - intros i p Hi. unfold listPackages.
    replace (i + 2)%nat with (S (S i)) by lia. simpl.
    rewrite lookup_app_l by (rewrite length_map; by eapply lookup_lt_Some).
    change (map package_line packages) with (package_line <$> packages).
    by rewrite list_lookup_fmap, Hi.
  - intros p q Hp Hq. apply package_line_inj; by apply Hvalid.
  - unfold aliases_of. intros Hnd.
    induction packages as [|p packages IH]; simpl; [constructor|].
    apply NoDup_cons in Hnd as [Hnin Hnd]. apply NoDup_cons. split.
    + intros Hin. change (map package_line packages) with (package_line <$> packages) in Hin.
      apply list_elem_of_fmap in Hin as (q & Heq & Hq).
      apply Hnin. destruct (package_line_inj p q) as [Ha _];
        [apply Hvalid; by left|apply Hvalid; by right|done|].
      rewrite Ha. change (map (fun p0 : InstalledPackage => alias p0) packages)
        with ((fun p0 : InstalledPackage => alias p0) <$> packages).
      apply list_elem_of_fmap. by exists q.
    + apply IH; [|done]. intros x Hx. apply Hvalid. by right.
Qed.

End ListingProperties.

Lemma listing_identifies_packages_witness :
  listPackages [installed_as (js "lodash"); installed_as (js "m")] !! 3%nat =
  Some (js "- m = m").
Proof.
  destruct (listing_identifies_packages [installed_as (js "lodash"); installed_as (js "m")])
    as (_ & Hline & _).
  - repeat constructor; by vm_compute.
  - exact (Hline 1%nat (installed_as (js "m")) eq_refl).
Defined.

(** ** Sessions without overlap *)

(** X29. Along a session whose handlers run one after the other, each to
    its end before the next starts, the aliases of the installed list are
    pairwise distinct after startup and after every command:
    [validatePackageNames] throws whenever the new and the installed
    aliases together hold a duplicate, and the [.import] handler extends
    the list only when that validation has returned.  Handlers that
    overlap are outside this statement. *)
Theorem aliases_stay_distinct (host : Host) :
  (forall (newPackages : list PackageToInstall) (alreadyInstalled : list InstalledPackage),
     ~ NoDup (all_aliases newPackages alreadyInstalled) ->
     exists e, validatePackageNames (validateNpmPackageName host)
                 newPackages alreadyInstalled = Throws e) /\
  (forall (process_argv : list jsstring) (cmds : list command) (st0 st1 st2 : state)
          (path : jsstring) (r : outcome unit),
     installedPackages st0 = [] ->
     main host process_argv st0 = (Returns path, st1) ->
     run_commands host path cmds st1 = (r, st2) ->
     NoDup (session_aliases st1) /\ NoDup (session_aliases st2)) /\
  (forall (args path : jsstring) (st st' : state),
     importAdditionalPackagesViaCommand host args path st = (Returns tt, st') ->
     installedPackages st' <> installedPackages st ->
     validatePackageNames (validateNpmPackageName host)
       (getPackagesToInstallFromArgv (stringArgv host args)) (installedPackages st) =
     Returns tt).
Proof.
  split; [|split].
  - intros newPackages alreadyInstalled. apply validatePackageNames_duplicate.
  - intros process_argv cmds st0 st1 st2 path r _ Hmain Hrun.
    pose proof (main_distinct host _ _ _ _ Hmain) as H1. split; [done|].
    by apply (run_commands_keeps_distinct host _ _ _ _ _ Hrun).
  - intros args path st st' Hrun Hchanged.
    destruct (importAdditionalPackagesViaCommand_run host args path st) as (st2 & E & Hres).
    rewrite E in Hrun. injection Hrun as ->.
    destruct Hres as [e Hval -> | e evs Hval _ -> | newly st1 Hval _ _ _]; done.
Qed.

Lemma aliases_stay_distinct_witness :
  exists (path : jsstring) (st1 st2 : state) (r : outcome unit),
    main sample_host [js "node"; js "repl-with"; js "lodash"] initial_state =
      (Returns path, st1) /\
    run_commands sample_host path
      [CmdImport (js "m=moment"); CmdImport (js "lodash"); CmdImport (js "l4=lodash@4")] st1 =
      (r, st2) /\
    session_aliases st2 = [js "lodash"; js "m"; js "l4"] /\
    NoDup (session_aliases st1) /\ NoDup (session_aliases st2).
Proof.
  assert (exists path st1,
    main sample_host [js "node"; js "repl-with"; js "lodash"] initial_state =
      (Returns path, st1)) as (path & st1 & Hmain)
    by (eexists _, _; vm_compute; reflexivity).
  assert (exists r st2,
    run_commands sample_host path
      [CmdImport (js "m=moment"); CmdImport (js "lodash"); CmdImport (js "l4=lodash@4")] st1 =
      (r, st2) /\ session_aliases st2 = [js "lodash"; js "m"; js "l4"])
    as (r & st2 & Hrun & Hlist).
  { vm_compute in Hmain. injection Hmain as <- <-.
    eexists _, _. split; vm_compute; reflexivity. }
  exists path, st1, st2, r. split; [done|]. split; [done|]. split; [done|].
  destruct (aliases_stay_distinct sample_host) as (_ & Hinv & _).
  exact (Hinv _ _ initial_state _ _ _ _ eq_refl Hmain Hrun).
Defined.
